(** * mirror: the tree-diff and ordering engine of [mirror/mirror.go]

    A shallow embedding of the Go package [mirror] (one-directional directory
    synchronisation) and the properties of its diff functions
    ([MissingFolders], [FoldersToClean], [MissingFiles], [FilesToClean]), of
    its directory walk ([ReadFolder]) and of the two collapsing orders
    ([keepFoldersWithLongestPrefix], [keepFoldersWithShortestPrefix]); then
    of what it shows to the user ([ThousandSeparator], [BytesToMB],
    [logProgressFolders], [logProgressFiles]) and of [VetFlags].

    Conventions of the embedding:
    - a Go [string] is a [string] (a sequence of bytes), compared bytewise;
    - a Go [map[string]V] is a [gmap string V]; [range] over a map visits the
      keys in an unspecified order, [map_fold] visits them in a fixed one, and
      every loop body here yields the same result in any order;
    - a Go [int] (an index) is a [Z]; an [int64] (a file size) is a [Z] whose
      additions wrap around at 64 bits ([add64]);
    - a function that can panic returns a [Result]; a function that returns
      an [error] besides its state returns the state and an [option error]. *)

From Stdlib Require Import ZArith Lia Ascii.
From Stdlib Require DecimalString DecimalZ DecimalPos.
From stdpp Require Import gmap strings list fin_maps sorting.

Local Open Scope Z_scope.

(** ** Panics *)

(** The outcome of a Go function that either returns or panics. *)
Inductive Result (A : Type) : Type :=
| Ok (a : A)
| Panic (msg : string).
Arguments Ok {A} a.
Arguments Panic {A} msg.

(** Sequencing: a panic ends the computation. The notation [x ← r; k] is
    stdpp's, for this instance. *)
#[global] Instance Result_bind : MBind Result := λ A B k r,
  match r with
  | Ok a => k a
  | Panic msg => Panic msg
  end.

(** A counted loop [for i := ...; ...; ... { s = body(i, s) }] whose body
    leaves [i] alone, over the values [idxs] that [i] takes, in order. *)
Fixpoint forEach {St : Type} (body : Z → St → Result St) (idxs : list Z)
    (s : St) : Result St :=
  match idxs with
  | [] => Ok s
  | i :: idxs' => s' ← body i s; forEach body idxs' s'
  end.

(** [s[i]] on a slice: a run-time panic outside [0 <= i < len(s)]. *)
Definition index {A} (s : list A) (i : Z) : Result A :=
  if i <? 0 then Panic "index out of range"
  else match s !! Z.to_nat i with
       | Some x => Ok x
       | None => Panic "index out of range"
       end.

(** A Go [error] value, by its message; [None] is [nil]. *)
Definition error : Type := string.

(** ** The library functions the package calls *)

(** [strings.HasPrefix(s, prefix)]:
    [len(s) >= len(prefix) && s[:len(prefix)] == prefix]. *)
Fixpoint HasPrefix (s prefix : string) {struct prefix} : bool :=
  match prefix, s with
  | EmptyString, _ => true
  | String c prefix', String d s' =>
      bool_decide (c = d) && HasPrefix s' prefix'
  | String _ _, EmptyString => false
  end.

(** [path/filepath] on a Unix platform: [Separator] is ['/'] and there are no
    volume names. *)
Module filepath.

Definition Separator : ascii := "/"%char.

(** [strings.Split(s, "/")]. *)
Fixpoint elements (s : string) : list string :=
  match s with
  | EmptyString => [""]
  | String c s' =>
      if bool_decide (c = Separator) then "" :: elements s'
      else match elements s' with
           | e :: es => String c e :: es
           | [] => [String c ""]
           end
  end.

(** [strings.Join(es, "/")]. *)
Fixpoint joinSep (es : list string) : string :=
  match es with
  | [] => ""
  | [e] => e
  | e :: es' => e +:+ String Separator (joinSep es')
  end.

(** One step of [Clean] over the elements written so far ([out], the last
    one first): an empty element and [.] are dropped, [..] removes the
    element before it when there is one that is not itself a kept [..],
    is kept at the start of a path that is not rooted, and is dropped at
    the start of a rooted one. *)
Definition cleanStep (rooted : bool) (out : list string) (e : string)
  : list string :=
  if bool_decide (e = "") || bool_decide (e = ".") then out
  else if bool_decide (e = "..") then
    match out with
    | top :: out' =>
        if bool_decide (top = "..") then e :: out else out'
    | [] => if rooted then out else [e]
    end
  else e :: out.

(** [filepath.Clean]: the shortest path name equivalent to [path]. *)
Definition Clean (path : string) : string :=
  match path with
  | EmptyString => "."
  | String c _ =>
      let rooted := bool_decide (c = Separator) in
      let out := reverse (foldl (cleanStep rooted) [] (elements path)) in
      if rooted then String Separator (joinSep out)
      else match out with
           | [] => "."
           | _ => joinSep out
           end
  end.

(** [path[:i+1]] for the last index [i] of a separator in [path] (the
    empty string when there is none). *)
Fixpoint upToLastSeparator (path : string) : string :=
  match path with
  | EmptyString => ""
  | String c path' =>
      let rest := upToLastSeparator path' in
      if bool_decide (c = Separator) || negb (bool_decide (rest = ""))
      then String c rest
      else ""
  end.

(** [filepath.Dir]: all but the last element of [path], cleaned. *)
Definition Dir (path : string) : string := Clean (upToLastSeparator path).

(** [filepath.Join(a, b)]: the non-empty elements joined by a separator,
    cleaned; the empty string when both are empty. *)
Definition Join (a b : string) : string :=
  if bool_decide (a = "") then
    if bool_decide (b = "") then "" else Clean b
  else Clean (a +:+ String Separator b).

(** The bytes of [s] before its first separator, and the rest of [s] from
    that separator on. *)
Fixpoint word (s : string) : string * string :=
  match s with
  | EmptyString => ("", "")
  | String c s' =>
      if bool_decide (c = Separator) then ("", s)
      else let '(w, rest) := word s' in (String c w, rest)
  end.

(** [if i < len(s) { i++ }] at a position that is the end of [s] or a
    separator. *)
Definition skipSeparator (s : string) : string :=
  match s with
  | EmptyString => ""
  | String _ s' => s'
  end.

(** The loop of [Rel] that walks [base] and [targ] over their common
    leading elements. It returns [base[b0:bi]], [base[b0:]] and
    [targ[t0:]] as they stand when the loop ends. Every turn consumes a
    byte of [base], so [S (length base)] turns are enough. *)
Fixpoint relLoop (fuel : nat) (base targ : string)
  : string * string * string :=
  match fuel with
  | O => ("", base, targ)
  | S fuel' =>
      if bool_decide (base = "") || bool_decide (targ = "")
      then ("", base, targ)
      else
        let '(bw, brest) := word base in
        let '(tw, trest) := word targ in
        if bool_decide (tw = bw)
        then relLoop fuel' (skipSeparator brest) (skipSeparator trest)
        else (bw, base, targ)
  end.

Definition slashed (s : string) : bool :=
  match s with
  | EmptyString => false
  | String c _ => bool_decide (c = Separator)
  end.

(** [strings.Count(s, "/")]. *)
Fixpoint countSeparators (s : string) : nat :=
  match s with
  | EmptyString => O
  | String c s' =>
      (if bool_decide (c = Separator) then 1 else 0)%nat + countSeparators s'
  end.

Fixpoint dotdots (n : nat) : string :=
  match n with
  | O => ""
  | S n' => String Separator ".." +:+ dotdots n'
  end.

(** [filepath.Rel(basepath, targpath)]: a path that names [targpath] when
    joined to [basepath], or an error when there is none. *)
Definition Rel (basepath targpath : string) : string * option error :=
  let cantMake :=
    ("", Some ("Rel: can't make " +:+ targpath +:+ " relative to "
               +:+ basepath)) in
  let base := Clean basepath in
  let targ := Clean targpath in
  if bool_decide (targ = base) then (".", None)
  else
    let base := if bool_decide (base = ".") then "" else base in
    if negb (bool_decide (slashed base = slashed targ)) then cantMake
    else
      let '(bw, brest, trest) := relLoop (S (String.length base)) base targ in
      if bool_decide (bw = "..") then cantMake
      else if negb (bool_decide (brest = "")) then
        (".." +:+ dotdots (countSeparators brest)
           +:+ (if bool_decide (trest = "") then ""
                else String Separator trest), None)
      else (trest, None).

End filepath.

(** [os.ModeSymlink], bit 27 of an [fs.FileMode]. *)
Definition ModeSymlink : Z := Z.shiftl 1 27.

(** ** The package: constants and types *)

Definition FolderToIgnore : string := "dont_mirror".
Definition ErrOnlyFoldersOrFiles : string :=
  "the function accepts only folders and files".

(** [type Folder map[string]struct{}] and [type File map[string]int64]. *)
Abbreviation Folder := (gmap string ()).
Abbreviation File := (gmap string Z).

(** The dynamic types an [interface{}] argument can have. *)
Inductive any : Type :=
| AnyFolder (m : Folder)
| AnyFile (m : File)
| AnyOther.

(** ** 64-bit sizes *)

(** The [int64] with the bits of [z]. *)
Definition wrap64 (z : Z) : Z := (z + 2 ^ 63) mod 2 ^ 64 - 2 ^ 63.

(** [a + b] on [int64]. *)
Definition add64 (a b : Z) : Z := wrap64 (a + b).

(** [v, ok := m[k]]: the zero value and [false] when [k] is not a key. *)
Definition commaOk {V} (zero : V) (m : gmap string V) (k : string)
  : V * bool :=
  match m !! k with
  | Some v => (v, true)
  | None => (zero, false)
  end.

(** ** The directory tree that [ReadFolder] walks *)

(** [fs.FileInfo], as far as the walk reads it: [Mode()], a 32-bit mask, and
    [Size()], an [int64]. *)
Record FileInfo : Type := { Mode : Z; Size : Z }.

(** An [fs.DirEntry] with what the walk can ask of it. [Directory] is an
    entry whose [IsDir()] is true, with the result of [os.ReadDir] on its
    path; [NonDirectory] is any other entry (a regular file, a symbolic
    link, a device...), with the result of its [Info()]. *)
Inductive DirEntry : Type :=
| Directory (name : string) (contents : ReadDir)
| NonDirectory (name : string) (info : FileInfo) (err : option error)
with ReadDir : Type :=
| readDir (items : list DirEntry) (err : option error).

Definition Name (item : DirEntry) : string :=
  match item with
  | Directory name _ => name
  | NonDirectory name _ _ => name
  end.

(** [info.Mode()&os.ModeSymlink != os.ModeSymlink] *)
Definition notSymlink (info : FileInfo) : bool :=
  negb (Z.land (Mode info) ModeSymlink =? ModeSymlink).

(** ** The walk *)

(** [readFolder(path, startingPath, folders, files)], on the directory whose
    listing is [fs]. The two maps are updated in place by the Go code: they
    are passed in and returned, together with the error. The test
    [item.IsDir()] is the case of the entry, and [os.ReadDir(currentPath)]
    in the recursive call returns the listing that the entry carries. *)
Fixpoint readFolder (path startingPath : string) (fs : ReadDir)
    (folders : Folder) (files : File) {struct fs}
  : Folder * File * option error :=
  match fs with
  | readDir items (Some err) => (folders, files, Some err)
  | readDir items None =>
      (fix range (items : list DirEntry) (folders : Folder) (files : File)
         {struct items} : Folder * File * option error :=
         match items with
         | [] => (folders, files, None)
         | item :: items' =>
             let currentName := Name item in
             let currentPath := filepath.Join path currentName in
             match filepath.Rel startingPath currentPath with
             | (_, Some err) => (folders, files, Some err)
             | (currentTrimmedPath, None) =>
                 match item with
                 | Directory _ contents =>
                     if negb (bool_decide (currentName = FolderToIgnore)) then
                       let folders := <[currentTrimmedPath := ()]> folders in
                       match readFolder currentPath startingPath contents
                               folders files with
                       | (folders, files, Some err) =>
                           (folders, files, Some err)
                       | (folders, files, None) => range items' folders files
                       end
                     else range items' folders files
                 | NonDirectory _ info (Some err) =>
                     (folders, files, Some err)
                 | NonDirectory _ info None =>
                     if notSymlink info then
                       range items' folders
                         (<[currentTrimmedPath := Size info]> files)
                     else range items' folders files
                 end
             end
         end) items folders files
  end.

(** [ReadFolder(path)], where [fs] is the listing of the directory at
    [path]. *)
Definition ReadFolder (path : string) (fs : ReadDir)
  : Folder * File * option error :=
  readFolder path path fs ∅ ∅.

(** The loop of [readFolder] over the entries of one directory, by itself:
    [readFolder] on a listing that was read without error is this loop
    ([readFolder_items]). *)
Fixpoint readFolderItems (path startingPath : string)
    (items : list DirEntry) (folders : Folder) (files : File)
  : Folder * File * option error :=
  match items with
  | [] => (folders, files, None)
  | item :: items' =>
      let currentName := Name item in
      let currentPath := filepath.Join path currentName in
      match filepath.Rel startingPath currentPath with
      | (_, Some err) => (folders, files, Some err)
      | (currentTrimmedPath, None) =>
          match item with
          | Directory _ contents =>
              if negb (bool_decide (currentName = FolderToIgnore)) then
                let folders := <[currentTrimmedPath := ()]> folders in
                match readFolder currentPath startingPath contents
                        folders files with
                | (folders, files, Some err) => (folders, files, Some err)
                | (folders, files, None) =>
                    readFolderItems path startingPath items' folders files
                end
              else readFolderItems path startingPath items' folders files
          | NonDirectory _ info (Some err) => (folders, files, Some err)
          | NonDirectory _ info None =>
              if notSymlink info then
                readFolderItems path startingPath items' folders
                  (<[currentTrimmedPath := Size info]> files)
              else readFolderItems path startingPath items' folders files
          end
      end
  end.

(** ** The diff functions *)

(** [for k, v := range m { acc = body(k, v, acc) }] when the entries of [m]
    come in the order [entries]. Go leaves the order open; [map_fold] is the
    loop in the order of [map_to_list], and the four loops below return the
    same in every order ([range_any_order]). *)
Fixpoint rangeMap {V B} (body : string → V → B → B)
    (entries : list (string * V)) (acc : B) : B :=
  match entries with
  | [] => acc
  | (k, v) :: entries' => rangeMap body entries' (body k v acc)
  end.

(** The body of the loop of [MissingFolders] and, with [dst] and [src]
    exchanged, of [FoldersToClean]: [other] is the map that is looked up. *)
Definition addIfAbsent (other : Folder) (folder : string) (v : ())
    (res : Folder) : Folder :=
  let '(_, ok) := commaOk () other folder in
  if negb ok then <[folder := v]> res else res.

Definition MissingFolders (dst src : Folder) : Folder :=
  map_fold (addIfAbsent dst) ∅ src.

Definition FoldersToClean (dst src : Folder) : Folder :=
  map_fold (addIfAbsent src) ∅ dst.

(** The body of the loop of [MissingFiles]. *)
Definition addIfDiffers (dst : File) (file : string) (size : Z)
    (acc : File * Z) : File * Z :=
  let '(res, totalSize) := acc in
  let '(_size, ok) := commaOk 0 dst file in
  if negb ok || negb (_size =? size)
  then (<[file := size]> res, add64 totalSize size)
  else (res, totalSize).

Definition MissingFiles (dst src : File) : File * Z :=
  map_fold (addIfDiffers dst) (∅, 0) src.

(** The body of the loop of [FilesToClean]. *)
Definition addIfNotIn (src : File) (file : string) (size : Z)
    (acc : File * Z) : File * Z :=
  let '(res, totalSize) := acc in
  let '(_, ok) := commaOk 0 src file in
  if negb ok
  then (<[file := size]> res, add64 totalSize size)
  else (res, totalSize).

Definition FilesToClean (dst src : File) : File * Z :=
  map_fold (addIfNotIn src) (∅, 0) dst.

(** ** Sorting and the two collapsing orders *)

(** [sort.Slice(res, func(i, j int) bool { return res[i] < res[j] })] on the
    keys of a map: the keys are distinct, so there is one ascending
    arrangement of them, whichever way the sort reaches it. *)
Definition sortStrings (keys : list string) : list string :=
  merge_sort String.le keys.

Definition sortFoldersOrFiles (m : any) : Result (list string) :=
  match m with
  | AnyFolder folders => Ok (sortStrings (map_to_list folders).*1)
  | AnyFile files => Ok (sortStrings (map_to_list files).*1)
  | AnyOther => Panic ErrOnlyFoldersOrFiles
  end.

(** [len(m)] as a Go [int]. *)
Definition len {V} (m : gmap string V) : Z := Z.of_nat (size m).

(** The test of [keepFoldersWithLongestPrefix] on [sorted[i]] and
    [sorted[i+1]], and of [keepFoldersWithShortestPrefix] on [sorted[i-1]]
    and [sorted[i]]: [longer] stays beside [shorter]. *)
Definition keptBeside (longer shorter : string) : bool :=
  bool_decide (filepath.Dir longer = filepath.Dir shorter)
  || negb (HasPrefix longer shorter).

Definition keepFoldersWithLongestPrefix (folders : Folder)
  : Result (list string) :=
  sorted ← sortFoldersOrFiles (AnyFolder folders);
  res ← forEach (λ i res,
                   next ← index sorted (i + 1);
                   cur ← index sorted i;
                   Ok (if keptBeside next cur then res ++ [cur] else res))
                (seqZ 0 (len folders - 1)) [];
  last ← index sorted (len folders - 1);
  Ok (res ++ [last]).

Definition keepFoldersWithShortestPrefix (folders : Folder)
  : Result (list string) :=
  sorted ← sortFoldersOrFiles (AnyFolder folders);
  res ← forEach (λ i res,
                   cur ← index sorted i;
                   prev ← index sorted (i - 1);
                   Ok (if keptBeside cur prev then res ++ [cur] else res))
                (reverse (seqZ 1 (len folders - 1))) [];
  first ← index sorted 0;
  Ok (res ++ [first]).

(** ** Notions used to state the properties *)

(** The sum of the sizes recorded in a file index, as an unbounded
    integer. *)
Definition sumSizes (files : File) : Z :=
  map_fold (λ _ size acc, size + acc) 0 files.

(** What the diff functions select: a folder of one side that is not a key
    of the other, a source file whose key is absent from the destination or
    recorded there with another size, a destination file whose key is
    absent from the source. *)
Definition absentFrom {V W} (other : gmap string W) (kv : string * V)
  : Prop :=
  other !! kv.1 = None.

Definition differsFrom (dst : File) (kv : string * Z) : Prop :=
  dst !! kv.1 ≠ Some kv.2.

#[global] Instance absentFrom_dec {V W} (other : gmap string W)
  (kv : string * V) : Decision (absentFrom other kv).
Proof. unfold absentFrom. apply _. Defined.

#[global] Instance differsFrom_dec dst kv : Decision (differsFrom dst kv).
Proof. unfold differsFrom. apply _. Defined.

(** Two files whose sizes add up to [2^63], one more than the largest
    [int64]. *)
Definition twoHugeFiles : File := <["x" := 2 ^ 63 - 1]> {["y" := 1]}.

(** The keys of a map, in the order [map_to_list] lists them, and the same
    keys in ascending order. *)
Definition keys {V} (m : gmap string V) : list string := (map_to_list m).*1.
Definition sortedKeys {V} (m : gmap string V) : list string :=
  sortStrings (keys m).

(** One pass over a list that looks at each element [x] and the element
    [y] after it, and keeps [x] when [keep x y]; the last element has none
    after it and is left to the caller. *)
Fixpoint keptAdjacent (keep : string → string → bool) (l : list string)
  : list string :=
  match l with
  | x :: (y :: _) as l' =>
      (if keep x y then [x] else []) ++ keptAdjacent keep l'
  | _ => []
  end.

(** The folders [ab] and [abc/d]: what [MissingFolders] returns when the
    source holds [ab], [abc] and [abc/d] and the destination holds [abc]
    alone. *)
Definition abAndAbcD : Folder := <["ab" := ()]> {["abc/d" := ()]}.

(** A tree without its ignored directories: every directory named
    [FolderToIgnore] is removed, with all that is below it. *)
Fixpoint withoutIgnored (fs : ReadDir) : ReadDir :=
  match fs with
  | readDir items err =>
      readDir
        ((fix each (items : list DirEntry) : list DirEntry :=
            match items with
            | [] => []
            | Directory name contents :: items' =>
                if bool_decide (name = FolderToIgnore) then each items'
                else Directory name (withoutIgnored contents) :: each items'
            | item :: items' => item :: each items'
            end) items)
        err
  end.

Fixpoint withoutIgnoredItems (items : list DirEntry) : list DirEntry :=
  match items with
  | [] => []
  | Directory name contents :: items' =>
      if bool_decide (name = FolderToIgnore) then withoutIgnoredItems items'
      else Directory name (withoutIgnored contents)
             :: withoutIgnoredItems items'
  | item :: items' => item :: withoutIgnoredItems items'
  end.

(** A tree with its ignored directories emptied: every directory named
    [FolderToIgnore] stays, as a directory that is read without error and
    holds nothing. *)
Fixpoint ignoredEmptied (fs : ReadDir) : ReadDir :=
  match fs with
  | readDir items err =>
      readDir
        ((fix each (items : list DirEntry) : list DirEntry :=
            match items with
            | [] => []
            | Directory name contents :: items' =>
                Directory name
                  (if bool_decide (name = FolderToIgnore) then readDir [] None
                   else ignoredEmptied contents)
                  :: each items'
            | item :: items' => item :: each items'
            end) items)
        err
  end.

Fixpoint ignoredEmptiedItems (items : list DirEntry) : list DirEntry :=
  match items with
  | [] => []
  | Directory name contents :: items' =>
      Directory name
        (if bool_decide (name = FolderToIgnore) then readDir [] None
         else ignoredEmptied contents)
        :: ignoredEmptiedItems items'
  | item :: items' => item :: ignoredEmptiedItems items'
  end.

(** No directory of the tree is named [FolderToIgnore]. *)
Fixpoint ignoredNowhere (fs : ReadDir) : bool :=
  match fs with
  | readDir items _ =>
      (fix each (items : list DirEntry) : bool :=
         match items with
         | [] => true
         | Directory name contents :: items' =>
             negb (bool_decide (name = FolderToIgnore))
             && ignoredNowhere contents && each items'
         | _ :: items' => each items'
         end) items
  end.

(** An entry that is a symbolic link: not a directory, and [os.ModeSymlink]
    is set in its mode. *)
Definition isSymlink (item : DirEntry) : bool :=
  match item with
  | Directory _ _ => false
  | NonDirectory _ info _ => negb (notSymlink info)
  end.

(** A tree without its symbolic links. *)
Fixpoint withoutSymlinks (fs : ReadDir) : ReadDir :=
  match fs with
  | readDir items err =>
      readDir
        ((fix each (items : list DirEntry) : list DirEntry :=
            match items with
            | [] => []
            | Directory name contents :: items' =>
                Directory name (withoutSymlinks contents) :: each items'
            | item :: items' =>
                if isSymlink item then each items' else item :: each items'
            end) items)
        err
  end.

Fixpoint withoutSymlinksItems (items : list DirEntry) : list DirEntry :=
  match items with
  | [] => []
  | Directory name contents :: items' =>
      Directory name (withoutSymlinks contents) :: withoutSymlinksItems items'
  | item :: items' =>
      if isSymlink item then withoutSymlinksItems items'
      else item :: withoutSymlinksItems items'
  end.

(** No entry of the tree is a symbolic link. *)
Fixpoint symlinkNowhere (fs : ReadDir) : bool :=
  match fs with
  | readDir items _ =>
      (fix each (items : list DirEntry) : bool :=
         match items with
         | [] => true
         | Directory _ contents :: items' =>
             symlinkNowhere contents && each items'
         | item :: items' => negb (isSymlink item) && each items'
         end) items
  end.

(** Induction on a tree: a property holds of a listing when it holds of
    the listing of every directory in it. *)
Section ReadDir_induction.
Variable P : ReadDir → Prop.

Definition ofContents (item : DirEntry) : Prop :=
  match item with
  | Directory _ contents => P contents
  | NonDirectory _ _ _ => True
  end.

Hypothesis step :
  ∀ items err, Forall ofContents items → P (readDir items err).

Fixpoint ReadDir_tree_ind (fs : ReadDir) : P fs :=
  match fs with
  | readDir items err =>
      step items err
        ((fix each (items : list DirEntry) : Forall ofContents items :=
            match items with
            | [] => List.Forall_nil ofContents
            | item :: items' =>
                @List.Forall_cons _ ofContents item items'
                  (match item return ofContents item with
                   | Directory _ contents => ReadDir_tree_ind contents
                   | NonDirectory _ _ _ => I
                   end)
                  (each items')
            end) items)
  end.
End ReadDir_induction.

(** The tree of the two scenarios of the specification, under [root]: a
    directory [dont_mirror] that holds [secret.txt], a regular file [f] of
    5 bytes, a symbolic link [l], and a directory [d] that holds a regular
    file [g] of 9 bytes and a directory [dont_mirror] that cannot be
    read. *)
Definition scenarioTree : ReadDir :=
  readDir
    [ Directory "dont_mirror"
        (readDir [NonDirectory "secret.txt" {| Mode := 420; Size := 7 |} None]
                 None);
      NonDirectory "f" {| Mode := 420; Size := 5 |} None;
      NonDirectory "l" {| Mode := Z.lor ModeSymlink 511; Size := 1 |} None;
      Directory "d"
        (readDir [ NonDirectory "g" {| Mode := 420; Size := 9 |} None;
                   Directory "dont_mirror"
                     (readDir [] (Some "permission denied")) ]
                 None) ]
    None.

(** A directory that holds a regular file [f] of 5 bytes and a symbolic
    link [l]. *)
Definition fileAndLink : ReadDir :=
  readDir
    [ NonDirectory "f" {| Mode := 420; Size := 5 |} None;
      NonDirectory "l" {| Mode := Z.lor ModeSymlink 511; Size := 1 |} None ]
    None.

(** The folders [a], [a/b] and [a/b/c]. *)
Definition chainABC : Folder :=
  <["a" := ()]> (<["a/b" := ()]> {["a/b/c" := ()]}).

(** The folders of the package's tests of the two orders. *)
Definition testFolders : Folder :=
  list_to_map ((λ k, (k, ())) <$>
                 ["a/b/c"; "a"; "a/b"; "q"; "g"; "a/b/cc"; "aa"]).

(** ** Notions used to state the further properties *)

(** What a walk returns, laid over the maps [folders] and [files]: an entry
    of the walk stands where both have the key. *)
Definition laidOver (r : Folder * File * option error)
    (folders : Folder) (files : File) : Folder * File * option error :=
  (r.1.1 ∪ folders, r.1.2 ∪ files, r.2).

(** Every directory of the tree was listed without error and every other
    entry gave its [Info()] without error. *)
Fixpoint allRead (fs : ReadDir) : bool :=
  match fs with
  | readDir items err =>
      bool_decide (err = None)
      && (fix each (items : list DirEntry) : bool :=
            match items with
            | [] => true
            | Directory _ contents :: items' =>
                allRead contents && each items'
            | NonDirectory _ _ err :: items' =>
                bool_decide (err = None) && each items'
            end) items
  end.

Fixpoint allReadItems (items : list DirEntry) : bool :=
  match items with
  | [] => true
  | Directory _ contents :: items' => allRead contents && allReadItems items'
  | NonDirectory _ _ err :: items' =>
      bool_decide (err = None) && allReadItems items'
  end.

(** A directory [d] that holds a link whose [Info()] fails. *)
Definition brokenLink : ReadDir :=
  readDir
    [ Directory "d"
        (readDir [ NonDirectory "l" {| Mode := ModeSymlink; Size := 0 |}
                     (Some "lstat d/l: no such file or directory") ]
                 None) ]
    None.

(** ** Numbers shown to the user *)

(** [s[:k]] and [s[k:]] on a string, for [0 <= k <= len(s)]: the package
    slices within these bounds only. *)
Fixpoint sliceTo (s : string) (k : nat) : string :=
  match k, s with
  | S k', String c s' => String c (sliceTo s' k')
  | _, _ => ""
  end.

Fixpoint sliceFrom (s : string) (k : nat) : string :=
  match k, s with
  | S k', String _ s' => sliceFrom s' k'
  | _, _ => s
  end.

(** [ThousandSeparator] calls itself on [n[:len(n)-3]], which is shorter
    than [n]: [fuel] bounds the depth of the calls, and [len(n)] is enough
    ([ThousandSeparator_eq]). *)
Fixpoint ThousandSeparatorFuel (fuel : nat) (n : string) : string :=
  match fuel with
  | O => n
  | S fuel' =>
      if (String.length n <? 4)%nat then n
      else (ThousandSeparatorFuel fuel' (sliceTo n (String.length n - 3))
              +:+ " ")
             +:+ sliceFrom n (String.length n - 3)
  end.

Definition ThousandSeparator (n : string) : string :=
  ThousandSeparatorFuel (String.length n) n.

(** [strconv.FormatInt(i, 10)]: the decimal digits of [i] without leading
    zeros, after a [-] when [i] is negative. *)
Definition FormatInt (i : Z) : string :=
  DecimalString.NilZero.string_of_int (Z.to_int i).

Definition BytesInMB : Z := 1000000.

(** [size/BytesInMB] is the quotient truncated toward zero; it cannot
    overflow. *)
Definition BytesToMB (size : Z) : string :=
  ThousandSeparator (FormatInt (Z.quot size BytesInMB)).

(** The string without its spaces. *)
Fixpoint removeSpaces (s : string) : string :=
  match s with
  | EmptyString => ""
  | String c s' =>
      if bool_decide (c = " "%char) then removeSpaces s'
      else String c (removeSpaces s')
  end.

(** The strings of a list one after the other. *)
Fixpoint concatS (l : list string) : string :=
  match l with
  | [] => ""
  | s :: l' => s +:+ concatS l'
  end.

(** The integer that a decimal numeral, with or without [-], stands for. *)
Definition parseDecimal (s : string) : option Z :=
  Z.of_int <$> DecimalString.NilZero.int_of_string s.

(** ** Progress on the standard output *)

(** Multiplication and division of 64-bit integers (an [int] is one on a
    64-bit platform): the product wraps around, the quotient is truncated
    toward zero, and a division by zero is a run-time panic. *)
Definition mul64 (a b : Z) : Z := wrap64 (a * b).

Definition quo64 (a b : Z) : Result Z :=
  if b =? 0 then Panic "integer divide by zero"
  else Ok (wrap64 (a `quot` b)).

(** [fmt.Sprintf("%s %d%%\n", msg, progress)]: the line that [log.Printf]
    is given. *)
Definition progressLine (msg : string) (progress : Z) : string :=
  (((msg +:+ " ") +:+ FormatInt progress) +:+ "%") +:+ String "010"%char "".

(** [logProgressFiles] returns the new value of [*recentlyLoggedProgress]
    and the lines it printed. *)
Definition logProgressFiles (recentlyLoggedProgress totalSize bytesWritten : Z)
    (msg : string) : Z * list string :=
  let howOftenToLog := 10 in
  let logged (progress : Z) :=
    if add64 recentlyLoggedProgress howOftenToLog <=? progress
    then (add64 recentlyLoggedProgress progress, [progressLine msg progress])
    else (recentlyLoggedProgress, []) in
  if 0 <? totalSize then
    logged (wrap64 (mul64 bytesWritten 100 `quot` totalSize))
  else if (totalSize =? 0) && (0 <? recentlyLoggedProgress) then
    (recentlyLoggedProgress, [])
  else logged 100.

(** [logProgressFolders] returns the new values of
    [*recentlyLoggedProgress] and [*counter] and the lines it printed. *)
Definition logProgressFolders (recentlyLoggedProgress counter foldersLen : Z)
    (msg : string) : Result (Z * Z * list string) :=
  let counter := add64 counter 1 in
  let howOftenToLog := 10 in
  progress ← quo64 (mul64 counter 100) foldersLen;
  if add64 recentlyLoggedProgress howOftenToLog <=? progress
  then Ok (add64 recentlyLoggedProgress progress, counter,
           [progressLine msg progress])
  else Ok (recentlyLoggedProgress, counter, []).

(** The calls of [logProgressFiles] in the loops of [CopyFiles] and
    [CleanFiles], one after each file: [written] holds the values of
    [bytesWritten] (of [bytesDeleted]) at the calls. *)
Fixpoint logProgressFilesCalls (written : list Z)
    (recentlyLoggedProgress totalSize : Z) (msg : string)
  : Z * list string :=
  match written with
  | [] => (recentlyLoggedProgress, [])
  | bytesWritten :: written' =>
      let '(recentlyLoggedProgress, lines) :=
        logProgressFiles recentlyLoggedProgress totalSize bytesWritten msg in
      let '(recentlyLoggedProgress, lines') :=
        logProgressFilesCalls written' recentlyLoggedProgress totalSize msg in
      (recentlyLoggedProgress, lines ++ lines')
  end.

(** The calls of [logProgressFolders] in the loops of [MakeFolders] and
    [CleanFolders], one after each folder. *)
Fixpoint logProgressFoldersCalls (calls : nat)
    (recentlyLoggedProgress counter foldersLen : Z) (msg : string)
  : Result (Z * Z * list string) :=
  match calls with
  | O => Ok (recentlyLoggedProgress, counter, [])
  | S calls' =>
      '(recentlyLoggedProgress, counter, lines) ←
        logProgressFolders recentlyLoggedProgress counter foldersLen msg;
      '(recentlyLoggedProgress, counter, lines') ←
        logProgressFoldersCalls calls' recentlyLoggedProgress counter
          foldersLen msg;
      Ok (recentlyLoggedProgress, counter, lines ++ lines')
  end.

(** The sum of a list of integers. *)
Definition sumZ (l : list Z) : Z := foldr Z.add 0 l.

(** Each percentage of [ps] is at least ten above [sum] plus the
    percentages before it. *)
Fixpoint outgrows (sum : Z) (ps : list Z) : Prop :=
  match ps with
  | [] => True
  | p :: ps' => sum + 10 ≤ p ∧ outgrows (sum + p) ps'
  end.

(** ** The command line *)

Definition ErrWrongArgs : string :=
  "wrong arguments, use the -h flag for help".
Definition ErrSrcNotFound : string := "source folder doesn't exist".
Definition ErrDstNotFound : string := "destination folder doesn't exist".

(** [filepath.IsAbs] and [filepath.Abs] on a Unix platform; [Getwd] is what
    [os.Getwd()] returns. *)
Definition IsAbs (path : string) : bool := HasPrefix path "/".

Definition Abs (Getwd : string * option error) (path : string)
  : string * option error :=
  if IsAbs path then (filepath.Clean path, None)
  else match Getwd.2 with
       | Some err => ("", Some err)
       | None => (filepath.Join Getwd.1 path, None)
       end.

(** What [os.Stat] returns: a [FileInfo] and a nil error, or a nil
    [FileInfo] and an error, which [os.IsNotExist] tells to be of a missing
    file or not. *)
Inductive StatResult : Type :=
| StatInfo (IsDir : bool)
| StatError (IsNotExist : bool).

(** [os.IsNotExist(errF) || !f.IsDir()] for what [os.Stat] returned:
    [f.IsDir()] is evaluated when [errF] is not of a missing file, and is a
    call on a nil [FileInfo] when [errF] is another error. *)
Definition notFolder (r : StatResult) : Result bool :=
  match r with
  | StatError true => Ok true
  | StatError false =>
      Panic "invalid memory address or nil pointer dereference"
  | StatInfo isDir => Ok (negb isDir)
  end.

(** [VetFlags], for the values [srcPath], [dstPath] and [cFlag] that
    [flag.Parse] has set, in a process whose [os.Getwd()] returns [Getwd]
    and where [os.Stat] returns [Stat name] for [name]. *)
Definition VetFlags (srcPath dstPath : string) (cFlag : bool)
    (Getwd : string * option error) (Stat : string → StatResult)
  : Result (string * string * bool * option error) :=
  let src := srcPath in
  let dst := dstPath in
  if bool_decide (src = "") || bool_decide (dst = "") then
    Ok (dst, src, false, Some ErrWrongArgs)
  else
    let '(dst, err) := Abs Getwd dstPath in
    if bool_decide (err ≠ None) then Ok (dst, src, false, err)
    else
      let '(src, err) := Abs Getwd srcPath in
      if bool_decide (err ≠ None) then Ok (dst, src, false, err)
      else
        missing ← notFolder (Stat src);
        if missing : bool then Ok (dst, src, false, Some ErrSrcNotFound)
        else
          missing ← notFolder (Stat dst);
          if missing : bool then Ok (dst, src, false, Some ErrDstNotFound)
          else Ok (dst, src, cFlag, err).

(** * Properties *)

(** ** The model of [path/filepath] on the examples of its documentation *)

Example filepath_Clean_examples :
  filepath.Clean "a/c" = "a/c" ∧ filepath.Clean "a//c" = "a/c"
  ∧ filepath.Clean "a/c/." = "a/c" ∧ filepath.Clean "a/c/b/.." = "a/c"
  ∧ filepath.Clean "/../a/c" = "/a/c"
  ∧ filepath.Clean "/../a/b/../././/c" = "/a/c"
  ∧ filepath.Clean "" = "." ∧ filepath.Clean "../../x/.." = "../..".
Proof. by vm_compute. Qed.

Example filepath_Dir_examples :
  filepath.Dir "/foo/bar/baz.js" = "/foo/bar"
  ∧ filepath.Dir "/foo/bar/baz" = "/foo/bar"
  ∧ filepath.Dir "/foo/bar/baz/" = "/foo/bar/baz"
  ∧ filepath.Dir "dev.txt" = "." ∧ filepath.Dir "../todo.txt" = ".."
  ∧ filepath.Dir ".." = "." ∧ filepath.Dir "." = "."
  ∧ filepath.Dir "/" = "/" ∧ filepath.Dir "" = ".".
Proof. by vm_compute. Qed.

Example filepath_Join_examples :
  filepath.Join "a" "b/c" = "a/b/c" ∧ filepath.Join "a/b" "c" = "a/b/c"
  ∧ filepath.Join "a/b" "/c" = "a/b/c"
  ∧ filepath.Join "a/b" "../../../xyz" = "../xyz"
  ∧ filepath.Join "" "x" = "x" ∧ filepath.Join "" "" = "".
Proof. by vm_compute. Qed.

Example filepath_Rel_examples :
  filepath.Rel "/a" "/a/b/c" = ("b/c", None)
  ∧ filepath.Rel "/a" "/b/c" = ("../b/c", None)
  ∧ filepath.Rel "/a" "./b/c"
    = ("", Some "Rel: can't make ./b/c relative to /a")
  ∧ filepath.Rel "src" "src/same_1/same_2" = ("same_1/same_2", None)
  ∧ filepath.Rel "a" "a" = (".", None).
Proof. by vm_compute. Qed.

(** ** 64-bit addition *)

Lemma wrap64_add_l a b : wrap64 (wrap64 a + b) = wrap64 (a + b).
Proof.
  unfold wrap64. f_equal.
  replace ((a + 2 ^ 63) mod 2 ^ 64 - 2 ^ 63 + b + 2 ^ 63)
    with ((a + 2 ^ 63) mod 2 ^ 64 + b) by lia.
  rewrite Zplus_mod_idemp_l. f_equal. lia.
Qed.

Lemma wrap64_small z : - 2 ^ 63 ≤ z < 2 ^ 63 → wrap64 z = z.
Proof. intros Hz. unfold wrap64. rewrite Z.mod_small; lia. Qed.

Lemma wrap64_range z : - 2 ^ 63 ≤ wrap64 z < 2 ^ 63.
Proof.
  unfold wrap64.
  pose proof (Z.mod_pos_bound (z + 2 ^ 63) (2 ^ 64) ltac:(lia)). lia.
Qed.

(** ** The order of a [range] over a map *)

Lemma rangeMap_foldr {V B} (body : string → V → B → B) entries acc :
  rangeMap body entries acc = foldr (uncurry body) acc (reverse entries).
Proof.
  revert acc. induction entries as [|[k v] entries IH]; intros acc; [done | ].
  cbn [rangeMap]. rewrite IH. by rewrite reverse_cons, foldr_app.
Qed.

(** A loop whose body commutes with itself on two different keys returns
    the same in whatever order the entries of the map come. *)
Lemma range_any_order {V B} (body : string → V → B → B) (init : B)
    (m : gmap string V) entries :
  (∀ k1 v1 k2 v2 acc,
     k1 ≠ k2 →
     body k1 v1 (body k2 v2 acc) = body k2 v2 (body k1 v1 acc)) →
  entries ≡ₚ map_to_list m →
  rangeMap body entries init = map_fold body init m.
Proof.
  intros Hcomm Hperm. rewrite rangeMap_foldr, map_fold_foldr.
  assert (NoDup (reverse entries).*1) as Hkeys.
  { rewrite reverse_Permutation, Hperm. apply NoDup_fst_map_to_list. }
  apply (foldr_permutation (=)).
  - by intros kv acc acc' ->.
  - intros j1 [k1 v1] j2 [k2 v2] acc Hne Hj1 Hj2. cbn [uncurry].
    apply Hcomm. intros ->. apply Hne.
    apply (NoDup_lookup _ _ _ k2 Hkeys);
      rewrite list_lookup_fmap; [by rewrite Hj1 | by rewrite Hj2].
  - by etrans; [apply reverse_Permutation | ].
Qed.

Lemma add64_add64 t a b : add64 (add64 t a) b = add64 (add64 t b) a.
Proof. unfold add64. rewrite !wrap64_add_l. f_equal. lia. Qed.

Lemma addIfAbsent_comm other k1 v1 k2 v2 res :
  k1 ≠ k2 →
  addIfAbsent other k1 v1 (addIfAbsent other k2 v2 res)
  = addIfAbsent other k2 v2 (addIfAbsent other k1 v1 res).
Proof.
  intros Hne. unfold addIfAbsent, commaOk.
  destruct (other !! k1), (other !! k2); cbn [negb]; try done.
  by apply insert_insert_ne.
Qed.

Lemma addIfDiffers_comm dst k1 v1 k2 v2 acc :
  k1 ≠ k2 →
  addIfDiffers dst k1 v1 (addIfDiffers dst k2 v2 acc)
  = addIfDiffers dst k2 v2 (addIfDiffers dst k1 v1 acc).
Proof.
  intros Hne. destruct acc as [res totalSize]. unfold addIfDiffers, commaOk.
  destruct (dst !! k1) as [s1|], (dst !! k2) as [s2|]; cbn [negb orb];
    try destruct (s1 =? v1); try destruct (s2 =? v2); cbn [negb orb];
    try done; by rewrite insert_insert_ne, add64_add64.
Qed.

Lemma addIfNotIn_comm src k1 v1 k2 v2 acc :
  k1 ≠ k2 →
  addIfNotIn src k1 v1 (addIfNotIn src k2 v2 acc)
  = addIfNotIn src k2 v2 (addIfNotIn src k1 v1 acc).
Proof.
  intros Hne. destruct acc as [res totalSize]. unfold addIfNotIn, commaOk.
  destruct (src !! k1), (src !! k2); cbn [negb]; try done.
  by rewrite insert_insert_ne, add64_add64.
Qed.

(** The four diff functions return the same in whatever order Go ranges
    over the map. *)
Lemma diff_any_order_folders (dst src : Folder) entries :
  (entries ≡ₚ map_to_list src →
   rangeMap (addIfAbsent dst) entries ∅ = MissingFolders dst src)
  ∧ (entries ≡ₚ map_to_list dst →
     rangeMap (addIfAbsent src) entries ∅ = FoldersToClean dst src).
Proof.
  split; intros Hperm; apply range_any_order; try done;
    intros; by apply addIfAbsent_comm.
Qed.

Lemma diff_any_order_files (dst src : File) entries :
  (entries ≡ₚ map_to_list src →
   rangeMap (addIfDiffers dst) entries (∅, 0) = MissingFiles dst src)
  ∧ (entries ≡ₚ map_to_list dst →
     rangeMap (addIfNotIn src) entries (∅, 0) = FilesToClean dst src).
Proof.
  split; intros Hperm; apply range_any_order; try done; intros.
  - by apply addIfDiffers_comm.
  - by apply addIfNotIn_comm.
Qed.

(** ** The diff functions as filters *)

Lemma sumSizes_empty : sumSizes ∅ = 0.
Proof. unfold sumSizes. apply map_fold_empty. Qed.

Lemma sumSizes_insert (files : File) file size :
  files !! file = None →
  sumSizes (<[file := size]> files) = size + sumSizes files.
Proof.
  intros Hfresh. unfold sumSizes.
  rewrite map_fold_insert_L; [done | intros; lia | done].
Qed.

Lemma MissingFolders_filter (dst src : Folder) :
  MissingFolders dst src = filter (absentFrom dst) src.
Proof.
  unfold MissingFolders.
  apply (map_fold_weak_ind (λ res m, res = filter (absentFrom dst) m)).
  - by rewrite map_filter_empty.
  - intros folder v m res Hfresh ->. unfold addIfAbsent, commaOk.
    destruct (dst !! folder) as [u|] eqn:Hdst; simpl.
    + rewrite map_filter_insert_not'; [done | | ].
      * unfold absentFrom; simpl. by rewrite Hdst.
      * intros y Hy. by rewrite Hfresh in Hy.
    + by rewrite map_filter_insert_True.
Qed.

Lemma FoldersToClean_filter (dst src : Folder) :
  FoldersToClean dst src = filter (absentFrom src) dst.
Proof.
  unfold FoldersToClean.
  apply (map_fold_weak_ind (λ res m, res = filter (absentFrom src) m)).
  - by rewrite map_filter_empty.
  - intros folder v m res Hfresh ->. unfold addIfAbsent, commaOk.
    destruct (src !! folder) as [u|] eqn:Hsrc; simpl.
    + rewrite map_filter_insert_not'; [done | | ].
      * unfold absentFrom; simpl. by rewrite Hsrc.
      * intros y Hy. by rewrite Hfresh in Hy.
    + by rewrite map_filter_insert_True.
Qed.

(** The loop of [MissingFiles] and [FilesToClean]: a body that adds the
    entries passing a test [P] leaves the entries that pass it, and their
    sizes added up in 64 bits. *)
Lemma selected_sum (P : string * Z → Prop) `{!∀ kv, Decision (P kv)}
    (body : string → Z → File * Z → File * Z) (m : File) :
  (∀ file size res totalSize,
     body file size (res, totalSize)
     = if bool_decide (P (file, size))
       then (<[file := size]> res, add64 totalSize size)
       else (res, totalSize)) →
  map_fold body (∅, 0) m = (filter P m, wrap64 (sumSizes (filter P m))).
Proof.
  intros Hbody.
  apply (map_fold_weak_ind
           (λ r m, r = (filter P m, wrap64 (sumSizes (filter P m))))).
  - by rewrite map_filter_empty, sumSizes_empty.
  - intros file size m' r Hfresh ->. rewrite Hbody. case_bool_decide as HP.
    + rewrite map_filter_insert_True by done.
      rewrite sumSizes_insert by (by rewrite map_lookup_filter_None; left).
      unfold add64. rewrite wrap64_add_l. do 2 f_equal. lia.
    + rewrite map_filter_insert_not'; [done | done | ].
      intros y Hy. by rewrite Hfresh in Hy.
Qed.

Lemma MissingFiles_filter (dst src : File) :
  MissingFiles dst src
  = (filter (differsFrom dst) src,
     wrap64 (sumSizes (filter (differsFrom dst) src))).
Proof.
  apply selected_sum. intros file size res totalSize.
  unfold addIfDiffers, commaOk.
  case_bool_decide as HP; unfold differsFrom in HP;
    simpl in HP; destruct (dst !! file) as [_size|]; simpl; try done.
  - destruct (Z.eqb_spec _size size) as [->|Hne]; done.
  - destruct (Z.eqb_spec _size size) as [->|Hne]; [done | ].
    destruct HP. intros [=]. done.
  - by destruct HP.
Qed.

Lemma FilesToClean_filter (dst src : File) :
  FilesToClean dst src
  = (filter (absentFrom src) dst,
     wrap64 (sumSizes (filter (absentFrom src) dst))).
Proof.
  apply selected_sum. intros file size res totalSize.
  unfold addIfNotIn, commaOk.
  case_bool_decide as HP; unfold absentFrom in HP;
    simpl in HP; destruct (src !! file) as [_size|]; simpl; done.
Qed.

Lemma lookup_MissingFolders (dst src : Folder) folder :
  is_Some (MissingFolders dst src !! folder)
  ↔ is_Some (src !! folder) ∧ dst !! folder = None.
Proof.
  rewrite MissingFolders_filter. unfold is_Some.
  setoid_rewrite map_lookup_filter_Some. unfold absentFrom; simpl.
  split.
  - intros [v [Hv Habsent]]. eauto.
  - intros [[v Hv] Habsent]. eauto.
Qed.

Lemma lookup_FoldersToClean (dst src : Folder) folder :
  is_Some (FoldersToClean dst src !! folder)
  ↔ is_Some (dst !! folder) ∧ src !! folder = None.
Proof.
  rewrite FoldersToClean_filter. unfold is_Some.
  setoid_rewrite map_lookup_filter_Some. unfold absentFrom; simpl.
  split.
  - intros [v [Hv Habsent]]. eauto.
  - intros [[v Hv] Habsent]. eauto.
Qed.

(** ** The diff of folders *)

(** C6: for all folder sets [A] and [B], the keys of [MissingFolders A B]
    and the keys of [FoldersToClean A B] are disjoint, the keys of
    [MissingFolders A B] are keys of [B] (its source argument), and the
    keys of [FoldersToClean A B] are keys of [A] (its destination
    argument). *)
Theorem folder_diffs_disjoint_subsets (A B : Folder) :
  dom (MissingFolders A B) ## dom (FoldersToClean A B)
  ∧ dom (MissingFolders A B) ⊆ dom B
  ∧ dom (FoldersToClean A B) ⊆ dom A.
Proof.
  split; [ | split].
  - intros folder Hmissing Hclean.
    apply elem_of_dom, lookup_MissingFolders in Hmissing as [_ HA].
    apply elem_of_dom, lookup_FoldersToClean in Hclean as [[v Hv] _].
    congruence.
  - intros folder Hmissing.
    apply elem_of_dom, lookup_MissingFolders in Hmissing as [HB _].
    by apply elem_of_dom.
  - intros folder Hclean.
    apply elem_of_dom, lookup_FoldersToClean in Hclean as [HA _].
    by apply elem_of_dom.
Qed.

(** ** The diff of files *)

(** C4, as the code has it: for all file indexes [dst] and [src],
    [MissingFiles dst src] returns exactly the entries [(k, src[k])] such
    that [k] is absent from [dst] or [dst[k]] differs from [src[k]]: a file
    recorded with the same size on both sides is not returned, a file
    recorded with another size is. The returned [totalSize] is the sum of
    the sizes of the returned entries reduced to a signed 64-bit integer (the
    additions wrap around); it is that sum itself whenever the sum lies
    between [-2^63] and [2^63 - 1]. *)
Theorem MissingFiles_entries_and_total (dst src : File) :
  ∃ res totalSize,
    MissingFiles dst src = (res, totalSize)
    ∧ (∀ file size,
         res !! file = Some size
         ↔ src !! file = Some size ∧ dst !! file ≠ Some size)
    ∧ (∀ file size,
         src !! file = Some size → dst !! file = Some size →
         res !! file = None)
    ∧ (∀ file size size',
         src !! file = Some size → dst !! file = Some size' →
         size' ≠ size → res !! file = Some size)
    ∧ totalSize = wrap64 (sumSizes res)
    ∧ (- 2 ^ 63 ≤ sumSizes res < 2 ^ 63 → totalSize = sumSizes res).
Proof.
  eexists _, _. split; [apply MissingFiles_filter | ].
  assert (Hres : ∀ file size,
             filter (differsFrom dst) src !! file = Some size
             ↔ src !! file = Some size ∧ dst !! file ≠ Some size).
  { intros file size. by rewrite map_lookup_filter_Some. }
  split; [exact Hres | ]. split; [ | split; [ | split]].
  - intros file size Hsrc Hdst. apply eq_None_not_Some. intros [v Hv].
    apply Hres in Hv as [Hv Hne]. congruence.
  - intros file size size' Hsrc Hdst Hne. apply Hres. split; congruence.
  - done.
  - intros Hfits. by apply wrap64_small.
Qed.

(** C4, where the plain sum fails: with no file in the destination and
    [twoHugeFiles] in the source, both files are returned, their sizes add
    up to [2^63], and the returned total is [-2^63]. *)
Lemma MissingFiles_total_overflows :
  (MissingFiles ∅ twoHugeFiles).1 = twoHugeFiles
  ∧ sumSizes (MissingFiles ∅ twoHugeFiles).1 = 2 ^ 63
  ∧ (MissingFiles ∅ twoHugeFiles).2 = - 2 ^ 63
  ∧ (MissingFiles ∅ twoHugeFiles).2
    ≠ sumSizes (MissingFiles ∅ twoHugeFiles).1.
Proof. vm_compute. done. Qed.

(** C5, as the code has it: for all file indexes [dst] and [src],
    [FilesToClean dst src] returns exactly the entries [(k, dst[k])] such
    that [k] is a key of [dst] absent from [src], with the sizes of [dst].
    The returned [totalSize] is the sum of the sizes of the returned
    entries reduced to a signed 64-bit integer (the additions wrap around);
    it is that sum itself whenever the sum lies between [-2^63] and
    [2^63 - 1]. *)
Theorem FilesToClean_entries_and_total (dst src : File) :
  ∃ res totalSize,
    FilesToClean dst src = (res, totalSize)
    ∧ (∀ file size,
         res !! file = Some size
         ↔ dst !! file = Some size ∧ src !! file = None)
    ∧ totalSize = wrap64 (sumSizes res)
    ∧ (- 2 ^ 63 ≤ sumSizes res < 2 ^ 63 → totalSize = sumSizes res).
Proof.
  eexists _, _. split; [apply FilesToClean_filter | ].
  split; [ | split].
  - intros file size. by rewrite map_lookup_filter_Some.
  - done.
  - intros Hfits. by apply wrap64_small.
Qed.

(** C5, where the plain sum fails: with [twoHugeFiles] in the
    destination and no file in the source, both files are returned, their
    sizes add up to [2^63], and the returned total is [-2^63]. *)
Lemma FilesToClean_total_overflows :
  (FilesToClean twoHugeFiles ∅).1 = twoHugeFiles
  ∧ sumSizes (FilesToClean twoHugeFiles ∅).1 = 2 ^ 63
  ∧ (FilesToClean twoHugeFiles ∅).2 = - 2 ^ 63
  ∧ (FilesToClean twoHugeFiles ∅).2
    ≠ sumSizes (FilesToClean twoHugeFiles ∅).1.
Proof. vm_compute. done. Qed.

(** The byte accounting of the specification: two returned entries of
    sizes 100 and 250 give the total 350. *)
Example FilesToClean_350 :
  FilesToClean (<["x" := 100]> {["y" := 250]}) ∅
  = (<["x" := 100]> {["y" := 250]}, 350).
Proof. by vm_compute. Qed.

Example MissingFiles_350 :
  MissingFiles ∅ (<["x" := 100]> {["y" := 250]})
  = (<["x" := 100]> {["y" := 250]}, 350).
Proof. by vm_compute. Qed.

(** The files of the package's test ([makeTestSrcFolder],
    [makeTestDstFolder]): the file whose size differs and the file that the
    destination lacks are missing, 3 bytes in all. *)
Example MissingFiles_test :
  MissingFiles
    (<["_same_1" := 1]> (<["same_1/same_2/_not_in_src" := 1]>
       {["same_1/_different" := 1]}))
    (<["_same_1" := 1]> (<["same_1/same_2/_not_in_dst" := 1]>
       {["same_1/_different" := 2]}))
  = (<["same_1/same_2/_not_in_dst" := 1]> {["same_1/_different" := 2]}, 3).
Proof. by vm_compute. Qed.

(** ** A second run of the copy *)

(** C9: after the first diff is applied to the destination (every folder
    of [MissingFolders dstF srcF] is added to [dstF], and every entry of
    [MissingFiles dstX srcX] is written over the destination's, with the
    size of the source), a second diff against the same source is empty:
    [MissingFolders] returns no folder and [MissingFiles] returns no file
    and the total size 0. *)
Theorem second_copy_diff_empty (dstF srcF : Folder) (dstX srcX : File) :
  MissingFolders (MissingFolders dstF srcF ∪ dstF) srcF = ∅
  ∧ MissingFiles ((MissingFiles dstX srcX).1 ∪ dstX) srcX = (∅, 0).
Proof.
  split.
  - rewrite (MissingFolders_filter (_ ∪ _)). apply map_empty. intros folder.
    apply map_lookup_filter_None. right. intros v Hsrc Habsent.
    unfold absentFrom in Habsent; simpl in Habsent.
    apply lookup_union_None in Habsent as [Hmissing Hdst].
    assert (is_Some (MissingFolders dstF srcF !! folder)) as [u Hu]
      by (apply lookup_MissingFolders; eauto).
    congruence.
  - rewrite (MissingFiles_filter (_ ∪ _)).
    assert (filter (differsFrom ((MissingFiles dstX srcX).1 ∪ dstX)) srcX
            = ∅) as ->.
    { apply map_empty. intros file. apply map_lookup_filter_None. right.
      intros size Hsrc Hdiffers. apply Hdiffers; simpl.
      rewrite MissingFiles_filter; simpl.
      destruct (decide (dstX !! file = Some size)) as [Hsame|Hne].
      - apply lookup_union_Some_raw. right. split; [ | done].
        apply map_lookup_filter_None. right. intros v Hv Hd.
        apply Hd; simpl. congruence.
      - apply lookup_union_Some_raw. left.
        by apply map_lookup_filter_Some. }
    by rewrite sumSizes_empty.
Qed.

(** ** Prefixes *)

Lemma HasPrefix_spec s prefix :
  HasPrefix s prefix = true ↔ ∃ rest, s = prefix +:+ rest.
Proof.
  revert s. induction prefix as [|c prefix IH]; intros s; simpl.
  - split; [intros _; by exists s | done].
  - destruct s as [|d s]; simpl.
    + split; [done | by intros [rest ?]].
    + rewrite andb_true_iff, bool_decide_eq_true, IH. split.
      * intros [-> [rest ->]]. by exists rest.
      * intros [rest [= -> ->]]. split; [done | by exists rest].
Qed.

Lemma HasPrefix_refl s : HasPrefix s s = true.
Proof.
  induction s as [|c s IH]; simpl; [done | ].
  by rewrite bool_decide_eq_true_2 by done.
Qed.

Lemma HasPrefix_trans s t u :
  HasPrefix s t = true → HasPrefix t u = true → HasPrefix s u = true.
Proof.
  revert s t. induction u as [|c u IH]; intros s t; simpl; [done | ].
  destruct t as [|d t]; simpl; [by destruct s | ].
  destruct s as [|e s]; simpl; [done | ].
  rewrite !andb_true_iff, !bool_decide_eq_true.
  intros [-> Hst] [-> Htu]. eauto.
Qed.

(** ** Indexing and the two loops *)

Lemma index_app_middle {A} (pre : list A) x post :
  index (pre ++ x :: post) (Z.of_nat (length pre)) = Ok x.
Proof.
  unfold index. destruct (Z.ltb_spec (Z.of_nat (length pre)) 0); [lia | ].
  by rewrite Nat2Z.id, list_lookup_middle.
Qed.

(** The loop of [keepFoldersWithLongestPrefix] from index [length pre] on
    adds [keptAdjacent] of the rest of the slice. *)
Lemma longest_loop (l pre res : list string) :
  forEach (λ i res,
             next ← index (pre ++ l) (i + 1);
             cur ← index (pre ++ l) i;
             Ok (if keptBeside next cur then res ++ [cur] else res))
          (seqZ (Z.of_nat (length pre)) (Z.of_nat (length l) - 1)) res
  = Ok (res ++ keptAdjacent (λ x y, keptBeside y x) l).
Proof.
  revert pre res. induction l as [|x [|y l] IH]; intros pre res.
  - rewrite seqZ_nil by (simpl; lia). simpl. by rewrite app_nil_r.
  - rewrite seqZ_nil by (simpl; lia). simpl. by rewrite app_nil_r.
  - rewrite seqZ_cons by (simpl; lia). cbn [forEach].
    replace (Z.of_nat (length pre) + 1)
      with (Z.of_nat (length (pre ++ [x]))) by (rewrite length_app; simpl; lia).
    rewrite (cons_middle x pre), (assoc_L (++) pre [x]), index_app_middle.
    rewrite <- (assoc_L (++) pre [x]), <- cons_middle, index_app_middle.
    cbn [mbind Result_bind].
    specialize (IH (pre ++ [x])
                  (if keptBeside y x then res ++ [x] else res)).
    rewrite <- (assoc_L (++) pre [x]), <- cons_middle in IH.
    replace (Z.succ (Z.of_nat (length pre)))
      with (Z.of_nat (length (pre ++ [x]))) by (rewrite length_app; simpl; lia).
    replace (Z.pred (Z.of_nat (length (x :: y :: l)) - 1))
      with (Z.of_nat (length (y :: l)) - 1) by (simpl; lia).
    rewrite IH. cbn [keptAdjacent]. f_equal.
    destruct (keptBeside y x); by rewrite <- ?(assoc_L (++)).
Qed.

(** The loop of [keepFoldersWithShortestPrefix] walks the slice from its
    end: on a slice that ends with the reverse of [l], from index
    [length l - 1] down to 1, it adds [keptAdjacent] of [l]. *)
Lemma shortest_loop (l suf res : list string) :
  forEach (λ i res,
             cur ← index (reverse l ++ suf) i;
             prev ← index (reverse l ++ suf) (i - 1);
             Ok (if keptBeside cur prev then res ++ [cur] else res))
          (reverse (seqZ 1 (Z.of_nat (length l) - 1))) res
  = Ok (res ++ keptAdjacent keptBeside l).
Proof.
  revert suf res. induction l as [|x [|y l] IH]; intros suf res.
  - rewrite seqZ_nil by (simpl; lia). simpl. by rewrite app_nil_r.
  - rewrite seqZ_nil by (simpl; lia). simpl. by rewrite app_nil_r.
  - replace (Z.of_nat (length (x :: y :: l)) - 1)
      with (Z.of_nat (S (length l))) by (simpl; lia).
    rewrite seqZ_S, reverse_snoc. cbn [forEach].
    replace (1 + Z.of_nat (length l))
      with (Z.of_nat (length (reverse (y :: l))))
      by (rewrite length_reverse; simpl; lia).
    rewrite (reverse_cons (y :: l) x), <- (assoc_L (++)).
    cbn [app]. rewrite index_app_middle.
    replace (Z.of_nat (length (reverse (y :: l))) - 1)
      with (Z.of_nat (length (reverse l)))
      by (rewrite !length_reverse; simpl; lia).
    rewrite (reverse_cons l y), <- (assoc_L (++)).
    cbn [app]. rewrite index_app_middle. cbn [mbind Result_bind].
    specialize (IH (x :: suf)
                  (if keptBeside x y then res ++ [x] else res)).
    rewrite (reverse_cons l y), <- (assoc_L (++)) in IH. cbn [app] in IH.
    replace (Z.of_nat (length (y :: l)) - 1)
      with (Z.of_nat (length l)) in IH by (simpl; lia).
    rewrite IH. cbn [keptAdjacent]. f_equal.
    destruct (keptBeside x y); by rewrite <- ?(assoc_L (++)).
Qed.

(** ** The sorted keys *)

Lemma sortedKeys_Permutation {V} (m : gmap string V) :
  sortedKeys m ≡ₚ keys m.
Proof. apply merge_sort_Permutation. Qed.

Lemma length_sortedKeys {V} (m : gmap string V) :
  length (sortedKeys m) = size m.
Proof.
  rewrite sortedKeys_Permutation. unfold keys.
  by rewrite length_fmap, length_map_to_list.
Qed.

Lemma elem_of_sortedKeys {V} (m : gmap string V) k :
  k ∈ sortedKeys m ↔ k ∈ dom m.
Proof.
  rewrite sortedKeys_Permutation, elem_of_dom. unfold keys.
  rewrite list_elem_of_fmap. split.
  - intros [[k' v] [-> Hkv]]. apply elem_of_map_to_list in Hkv. eauto.
  - intros [v Hv]. exists (k, v). split; [done | ].
    by apply elem_of_map_to_list.
Qed.

Lemma sortedKeys_Sorted {V} (m : gmap string V) :
  Sorted String.le (sortedKeys m).
Proof. apply (Sorted_merge_sort String.le). Qed.

(** Any ascending arrangement of the keys is [sortedKeys]: the result of
    [sort.Slice] does not depend on how it sorts. *)
Lemma sortedKeys_unique {V} (m : gmap string V) l :
  l ≡ₚ keys m → Sorted String.le l → l = sortedKeys m.
Proof.
  intros Hperm Hsorted.
  apply (Sorted_unique String.le); [done | apply sortedKeys_Sorted | ].
  by rewrite sortedKeys_Permutation.
Qed.

Lemma sortedKeys_nonempty {V} (m : gmap string V) :
  m ≠ ∅ → sortedKeys m ≠ [].
Proof.
  intros Hm Hnil. apply map_size_non_empty_iff in Hm.
  by rewrite <- length_sortedKeys, Hnil in Hm.
Qed.

(** ** The two orders as one pass over the sorted keys *)

Lemma keepFoldersWithLongestPrefix_pass (folders : Folder) l x :
  sortedKeys folders = l ++ [x] →
  keepFoldersWithLongestPrefix folders
  = Ok (keptAdjacent (λ x y, keptBeside y x) (l ++ [x]) ++ [x]).
Proof.
  intros Hsorted. unfold keepFoldersWithLongestPrefix, sortFoldersOrFiles.
  fold (keys folders). fold (sortedKeys folders).
  cbn [mbind Result_bind].
  assert (len folders = Z.of_nat (length (l ++ [x]))) as ->
    by (unfold len; by rewrite <- length_sortedKeys, Hsorted).
  rewrite Hsorted.
  pose proof (longest_loop (l ++ [x]) [] []) as Hloop.
  cbn [app length] in Hloop. change (Z.of_nat 0) with 0 in Hloop.
  rewrite Hloop. cbn [mbind Result_bind].
  replace (Z.of_nat (length (l ++ [x])) - 1) with (Z.of_nat (length l))
    by (rewrite length_app; simpl; lia).
  by rewrite index_app_middle.
Qed.

Lemma keepFoldersWithShortestPrefix_pass (folders : Folder) x l :
  sortedKeys folders = x :: l →
  keepFoldersWithShortestPrefix folders
  = Ok (keptAdjacent keptBeside (reverse (x :: l)) ++ [x]).
Proof.
  intros Hsorted. unfold keepFoldersWithShortestPrefix, sortFoldersOrFiles.
  fold (keys folders). fold (sortedKeys folders).
  cbn [mbind Result_bind].
  assert (len folders = Z.of_nat (length (reverse (x :: l)))) as ->
    by (unfold len; by rewrite length_reverse, <- length_sortedKeys, Hsorted).
  rewrite Hsorted.
  pose proof (shortest_loop (reverse (x :: l)) [] []) as Hloop.
  rewrite reverse_involutive, app_nil_r in Hloop.
  rewrite Hloop. cbn [mbind Result_bind].
  pose proof (index_app_middle [] x l) as Hfirst.
  cbn [app length] in Hfirst. change (Z.of_nat 0) with 0 in Hfirst.
  by rewrite Hfirst.
Qed.

(** ** What one pass keeps and what it covers *)

Lemma keptAdjacent_subseteq keep l p : p ∈ keptAdjacent keep l → p ∈ l.
Proof.
  revert p. induction l as [|x [|y l] IH]; intros p Hp;
    [by apply elem_of_nil in Hp | by apply elem_of_nil in Hp | ].
  cbn [keptAdjacent] in Hp. apply elem_of_app in Hp as [Hp | Hp].
  - destruct (keep x y); [ | by apply elem_of_nil in Hp].
    apply list_elem_of_singleton in Hp as ->. apply list_elem_of_here.
  - apply list_elem_of_further. by apply IH.
Qed.

(** What the pass keeps of the rest of the list is kept of the list. *)
Lemma kept_further (first rest : list string) z p :
  p ∈ rest ++ [z] → p ∈ (first ++ rest) ++ [z].
Proof.
  intros Hp. rewrite <- (assoc_L (++)). apply elem_of_app. by right.
Qed.

(** When [x] is dropped only if it is related to the element after it, and
    the relation is transitive, every element of the list is kept or
    related to a kept one; the last element counts as kept. *)
Lemma keptAdjacent_covers (keep : string → string → bool)
    (R : relation string) l z :
  (∀ x y u, R x y → R y u → R x u) →
  (∀ x y, keep x y = false → R x y) →
  last l = Some z →
  ∀ p, p ∈ l →
       p ∈ keptAdjacent keep l ++ [z]
       ∨ ∃ q, q ∈ keptAdjacent keep l ++ [z] ∧ R p q.
Proof.
  intros Htrans Hdrop. induction l as [|x [|y l] IH]; intros Hlast p Hp.
  - by apply elem_of_nil in Hp.
  - injection Hlast as <-. by left.
  - change (last (x :: y :: l)) with (last (y :: l)) in Hlast.
    specialize (IH Hlast). cbn [keptAdjacent].
    apply elem_of_cons in Hp as [-> | Hp].
    + destruct (keep x y) eqn:Hkeep; [left; apply list_elem_of_here | ].
      right. destruct (IH y (list_elem_of_here y l)) as [Hy | [q [Hq Hyq]]].
      * exists y. split; [done | by apply Hdrop].
      * exists q. split; [done | ].
        apply (Htrans x y q); [by apply Hdrop | done].
    + destruct (IH p Hp) as [Hin | [q [Hq Hpq]]].
      * left. by apply kept_further.
      * right. exists q. split; [by apply kept_further | done].
Qed.

Lemma keptBeside_false longer shorter :
  keptBeside longer shorter = false → HasPrefix longer shorter = true.
Proof.
  unfold keptBeside. intros [_ Hprefix]%orb_false_iff.
  by apply negb_false_iff.
Qed.

Lemma Folder_eq_dom (m1 m2 : Folder) : dom m1 = dom m2 → m1 = m2.
Proof.
  intros Hdom. apply map_eq. intros k.
  destruct (m1 !! k) as [[]|] eqn:H1, (m2 !! k) as [[]|] eqn:H2; try done.
  - apply not_elem_of_dom in H2. rewrite <- Hdom in H2.
    by apply not_elem_of_dom in H2; rewrite H2 in H1.
  - apply not_elem_of_dom in H1. rewrite Hdom in H1.
    by apply not_elem_of_dom in H1; rewrite H1 in H2.
Qed.

Lemma last_snoc_inv {A} (l : list A) :
  l ≠ [] → ∃ l' x, l = l' ++ [x].
Proof.
  intros Hl. destruct l as [|y l] using rev_ind; [done | eauto].
Qed.

(** ** The two orders on the tests of the package and of the specification *)

Example TestKeepFoldersWithLongestPrefix :
  keepFoldersWithLongestPrefix testFolders
  = Ok ["a/b/c"; "a/b/cc"; "aa"; "g"; "q"].
Proof. by vm_compute. Qed.

Example TestKeepFoldersWithShortestPrefix :
  keepFoldersWithShortestPrefix testFolders
  = Ok ["q"; "g"; "aa"; "a/b/cc"; "a"].
Proof. by vm_compute. Qed.

(** Two disjoint subtrees: both are kept by either order. *)
Example disjoint_subtrees_kept :
  keepFoldersWithLongestPrefix (<["a/b" := ()]> {["c/d" := ()]})
  = Ok ["a/b"; "c/d"]
  ∧ keepFoldersWithShortestPrefix (<["a/b" := ()]> {["c/d" := ()]})
    = Ok ["c/d"; "a/b"].
Proof. by vm_compute. Qed.

(** Two siblings, one a string prefix of the other: both are kept, by the
    comparison of their parents. *)
Example sibling_prefix_kept :
  keepFoldersWithLongestPrefix (<["ab" := ()]> {["abc" := ()]})
  = Ok ["ab"; "abc"]
  ∧ keepFoldersWithShortestPrefix (<["ab" := ()]> {["abc" := ()]})
    = Ok ["abc"; "ab"].
Proof. by vm_compute. Qed.

(** A sibling that sorts between a folder and what is below it ([a-b]
    between [a] and [a/b], as [-] sorts before [/]) hides the chain from the
    adjacent test: [a] stays in the creation order beside [a/b/c], and
    [a/b] stays in the deletion order beside [a]. *)
Example interleaved_sibling_kept :
  keepFoldersWithLongestPrefix (<["a-b" := ()]> chainABC)
  = Ok ["a"; "a-b"; "a/b/c"]
  ∧ keepFoldersWithShortestPrefix (<["a-b" := ()]> chainABC)
    = Ok ["a/b"; "a-b"; "a"].
Proof. by vm_compute. Qed.

(** C1, where the code departs from it: [ab] is not an ancestor of [abc/d]
    (no path [ab/...] is a prefix of it), yet next to [abc/d] it is dropped
    from the creation order, and [abc/d] is dropped from the deletion order
    next to [ab]. The two folders are what [MissingFolders] returns for a
    destination that holds [abc] and a source that holds [ab], [abc] and
    [abc/d]. *)
Lemma prefix_of_other_element_collapsed :
  MissingFolders {["abc" := ()]}
                 (<["ab" := ()]> (<["abc" := ()]> {["abc/d" := ()]}))
  = abAndAbcD
  ∧ HasPrefix "abc/d" "ab/" = false
  ∧ HasPrefix "ab" "abc/d/" = false
  ∧ keepFoldersWithLongestPrefix abAndAbcD = Ok ["abc/d"]
  ∧ keepFoldersWithShortestPrefix abAndAbcD = Ok ["ab"].
Proof. by vm_compute. Qed.

(** C2: for the DirectorySet that holds exactly [a], [a/b] and [a/b/c],
    [keepFoldersWithLongestPrefix] (the creation order) yields exactly
    [["a/b/c"]] and [keepFoldersWithShortestPrefix] (the deletion order)
    yields exactly [["a"]]. *)
Theorem nested_chain_orders (folders : Folder) :
  dom folders = {["a"; "a/b"; "a/b/c"]} →
  keepFoldersWithLongestPrefix folders = Ok ["a/b/c"]
  ∧ keepFoldersWithShortestPrefix folders = Ok ["a"].
Proof.
  intros Hdom. assert (folders = chainABC) as ->.
  { apply Folder_eq_dom. rewrite Hdom. unfold chainABC.
    rewrite !dom_insert_L, dom_singleton_L. set_solver. }
  by vm_compute.
Qed.

Lemma nested_chain_orders_witness :
  keepFoldersWithLongestPrefix chainABC = Ok ["a/b/c"]
  ∧ keepFoldersWithShortestPrefix chainABC = Ok ["a"].
Proof.
  apply (nested_chain_orders chainABC). unfold chainABC.
  rewrite !dom_insert_L, dom_singleton_L.
  by rewrite (assoc_L (∪)).
Defined.

(** C3, as the code has it: on every DirectorySet that is not empty (the
    driver calls them on no other), [keepFoldersWithLongestPrefix] and
    [keepFoldersWithShortestPrefix] return a sequence and do not panic; on
    a DirectorySet of size 1 each returns the sequence of that single
    element. *)
Theorem orders_total_on_nonempty (folders : Folder) :
  folders ≠ ∅ →
  (∃ res, keepFoldersWithLongestPrefix folders = Ok res)
  ∧ (∃ res, keepFoldersWithShortestPrefix folders = Ok res)
  ∧ (size folders = 1%nat →
     ∃ p, dom folders = {[p]}
          ∧ keepFoldersWithLongestPrefix folders = Ok [p]
          ∧ keepFoldersWithShortestPrefix folders = Ok [p]).
Proof.
  intros Hne. pose proof (sortedKeys_nonempty folders Hne) as Hsorted.
  destruct (last_snoc_inv _ Hsorted) as (l & z & Hlast).
  destruct (sortedKeys folders) as [|x l'] eqn:Hfirst; [done | ].
  split; [ | split].
  - rewrite (keepFoldersWithLongestPrefix_pass folders l z) by congruence.
    eauto.
  - rewrite (keepFoldersWithShortestPrefix_pass folders x l') by done.
    eauto.
  - intros Hsize. pose proof (length_sortedKeys folders) as Hlen.
    rewrite Hfirst, Hsize in Hlen. destruct l' as [|? ?]; [ | done].
    destruct l as [|? [|? ?]]; try done. injection Hlast as ->.
    exists z. split; [ | split].
    + apply set_eq. intros k. rewrite <- elem_of_sortedKeys, Hfirst.
      by rewrite list_elem_of_singleton, elem_of_singleton.
    + by rewrite (keepFoldersWithLongestPrefix_pass folders [] z).
    + by rewrite (keepFoldersWithShortestPrefix_pass folders z []).
Qed.

Lemma orders_total_on_nonempty_witness :
  (∃ res, keepFoldersWithLongestPrefix {["a" := ()]} = Ok res)
  ∧ (∃ res, keepFoldersWithShortestPrefix {["a" := ()]} = Ok res)
  ∧ (size ({["a" := ()]} : Folder) = 1%nat →
     ∃ p, dom ({["a" := ()]} : Folder) = {[p]}
          ∧ keepFoldersWithLongestPrefix {["a" := ()]} = Ok [p]
          ∧ keepFoldersWithShortestPrefix {["a" := ()]} = Ok [p]).
Proof.
  apply (orders_total_on_nonempty {["a" := ()]}).
  apply insert_non_empty.
Defined.

(** C3, where totality fails: on the empty DirectorySet both
    functions panic, at [sorted[len(folders)-1]] and at [sorted[0]]. *)
Lemma orders_panic_on_empty :
  keepFoldersWithLongestPrefix ∅ = Panic "index out of range"
  ∧ keepFoldersWithShortestPrefix ∅ = Panic "index out of range".
Proof. by vm_compute. Qed.

(** C10: for every DirectorySet that is not empty, the output of
    [keepFoldersWithLongestPrefix] and the output of
    [keepFoldersWithShortestPrefix] are made of paths of the set, and every
    path [p] of the set is covered: [p] is in the first output or is a
    string prefix of a path in it, and [p] is in the second output or has a
    path of it as a string prefix. *)
Theorem orders_cover (folders : Folder) :
  folders ≠ ∅ →
  (∃ res, keepFoldersWithLongestPrefix folders = Ok res
          ∧ (∀ p, p ∈ res → p ∈ dom folders)
          ∧ (∀ p, p ∈ dom folders →
                  p ∈ res ∨ ∃ q, q ∈ res ∧ HasPrefix q p = true))
  ∧ (∃ res, keepFoldersWithShortestPrefix folders = Ok res
            ∧ (∀ p, p ∈ res → p ∈ dom folders)
            ∧ (∀ p, p ∈ dom folders →
                    p ∈ res ∨ ∃ q, q ∈ res ∧ HasPrefix p q = true)).
Proof.
  intros Hne. pose proof (sortedKeys_nonempty folders Hne) as Hsorted.
  destruct (last_snoc_inv _ Hsorted) as (l & z & Hlast).
  destruct (sortedKeys folders) as [|x l'] eqn:Hfirst; [done | ].
  split.
  - eexists.
    split;
      [apply (keepFoldersWithLongestPrefix_pass folders l z); congruence | ].
    split.
    + intros p [Hp | Hp]%elem_of_app.
      * apply elem_of_sortedKeys. rewrite Hfirst, Hlast.
        by apply keptAdjacent_subseteq in Hp.
      * apply elem_of_sortedKeys. rewrite Hfirst, Hlast.
        apply elem_of_app. by right.
    + intros p Hp. apply elem_of_sortedKeys in Hp.
      rewrite Hfirst, Hlast in Hp.
      apply (keptAdjacent_covers _ (λ p q, HasPrefix q p = true)
               (l ++ [z]) z); [ | | by rewrite last_snoc | done].
      * intros a b c Hba Hcb. by apply (HasPrefix_trans c b a).
      * intros a b. apply keptBeside_false.
  - eexists.
    split; [by apply (keepFoldersWithShortestPrefix_pass folders x l') | ].
    split.
    + intros p [Hp | Hp]%elem_of_app.
      * apply elem_of_sortedKeys. rewrite Hfirst.
        apply (elem_of_reverse p (x :: l')).
        by apply (keptAdjacent_subseteq keptBeside).
      * apply elem_of_sortedKeys. rewrite Hfirst.
        apply list_elem_of_singleton in Hp as ->. apply list_elem_of_here.
    + intros p Hp. apply elem_of_sortedKeys in Hp. rewrite Hfirst in Hp.
      apply (keptAdjacent_covers _ (λ p q, HasPrefix p q = true)
               (reverse (x :: l')) x).
      * intros a b c. apply HasPrefix_trans.
      * intros a b. apply keptBeside_false.
      * by rewrite reverse_cons, last_snoc.
      * by apply elem_of_reverse.
Qed.

Lemma orders_cover_witness :
  (∃ res, keepFoldersWithLongestPrefix testFolders = Ok res
          ∧ (∀ p, p ∈ res → p ∈ dom testFolders)
          ∧ (∀ p, p ∈ dom testFolders →
                  p ∈ res ∨ ∃ q, q ∈ res ∧ HasPrefix q p = true))
  ∧ (∃ res, keepFoldersWithShortestPrefix testFolders = Ok res
            ∧ (∀ p, p ∈ res → p ∈ dom testFolders)
            ∧ (∀ p, p ∈ dom testFolders →
                    p ∈ res ∨ ∃ q, q ∈ res ∧ HasPrefix p q = true)).
Proof.
  apply (orders_cover testFolders).
  intros Hempty. apply (f_equal size) in Hempty. by vm_compute in Hempty.
Defined.

(** ** The walk *)

Lemma readFolder_items path startingPath items folders files :
  readFolder path startingPath (readDir items None) folders files
  = readFolderItems path startingPath items folders files.
Proof.
  revert folders files.
  induction items as [|item items IH]; intros folders files; [done | ].
  cbn [readFolder readFolderItems] in *.
  destruct (filepath.Rel _ _) as [currentTrimmedPath [err|]]; [done | ].
  destruct item as [name contents | name info [err|]]; [ | done | ].
  - destruct (negb _); [ | apply IH].
    destruct (readFolder _ _ contents _ _) as [[folders' files'] [err|]];
      [done | apply IH].
  - destruct (notSymlink info); apply IH.
Qed.

Lemma withoutIgnored_items items err :
  withoutIgnored (readDir items err)
  = readDir (withoutIgnoredItems items) err.
Proof. reflexivity. Qed.

Lemma withoutSymlinks_items items err :
  withoutSymlinks (readDir items err)
  = readDir (withoutSymlinksItems items) err.
Proof. reflexivity. Qed.

(** A walk that ends without error ends the same way, with the same
    folders and files, on the tree without its ignored directories. *)
Lemma readFolder_withoutIgnored fs :
  ∀ path startingPath folders files folders' files',
    readFolder path startingPath fs folders files = (folders', files', None) →
    readFolder path startingPath (withoutIgnored fs) folders files
    = (folders', files', None).
Proof.
  induction fs as [items err Hitems] using ReadDir_tree_ind.
  intros path startingPath folders files folders' files'.
  destruct err as [err|]; [done | ].
  rewrite withoutIgnored_items, !readFolder_items. revert folders files.
  induction Hitems as [|item items Hitem _ IH]; intros folders files;
    [done | ].
  destruct item as [name contents | name info err];
    cbn [readFolderItems withoutIgnoredItems Name].
  - case_bool_decide as Hname; cbn [negb].
    + destruct (filepath.Rel _ _) as [currentTrimmedPath [err|]];
        [done | apply IH].
    + cbn [readFolderItems Name]. rewrite bool_decide_eq_false_2 by done.
      cbn [negb].
      destruct (filepath.Rel _ _) as [currentTrimmedPath [err|]]; [done | ].
      destruct (readFolder _ _ contents _ _) as [[folders1 files1] [err|]]
        eqn:Hcontents; [done | ].
      rewrite (Hitem _ _ _ _ _ _ Hcontents). apply IH.
  - cbn [readFolderItems Name].
    destruct (filepath.Rel _ _) as [currentTrimmedPath [err'|]]; [done | ].
    destruct err as [err|]; [done | ].
    destruct (notSymlink info); apply IH.
Qed.

Lemma ignoredNowhere_withoutIgnored fs :
  ignoredNowhere (withoutIgnored fs) = true.
Proof.
  induction fs as [items err Hitems] using ReadDir_tree_ind.
  rewrite withoutIgnored_items. cbn [ignoredNowhere].
  induction Hitems as [|item items Hitem _ IH]; [done | ].
  destruct item as [name contents | name info err'];
    cbn [withoutIgnoredItems]; [ | done].
  case_bool_decide as Hname; [done | ].
  rewrite bool_decide_eq_false_2 by done. cbn [negb andb].
  by rewrite Hitem.
Qed.

(** A walk that ends without error ends the same way, with the same
    folders and files, on the tree without its symbolic links. *)
Lemma readFolder_withoutSymlinks fs :
  ∀ path startingPath folders files folders' files',
    readFolder path startingPath fs folders files = (folders', files', None) →
    readFolder path startingPath (withoutSymlinks fs) folders files
    = (folders', files', None).
Proof.
  induction fs as [items err Hitems] using ReadDir_tree_ind.
  intros path startingPath folders files folders' files'.
  destruct err as [err|]; [done | ].
  rewrite withoutSymlinks_items, !readFolder_items. revert folders files.
  induction Hitems as [|item items Hitem _ IH]; intros folders files;
    [done | ].
  destruct item as [name contents | name info err];
    cbn [readFolderItems withoutSymlinksItems Name isSymlink].
  - destruct (filepath.Rel _ _) as [currentTrimmedPath [err|]]; [done | ].
    destruct (negb _); [ | apply IH].
    destruct (readFolder _ _ contents _ _) as [[folders1 files1] [err|]]
      eqn:Hcontents; [done | ].
    rewrite (Hitem _ _ _ _ _ _ Hcontents). apply IH.
  - destruct (notSymlink info) eqn:Hlink; cbn [negb readFolderItems Name].
    + rewrite Hlink.
      destruct (filepath.Rel _ _) as [currentTrimmedPath [err'|]]; [done | ].
      destruct err as [err|]; [done | apply IH].
    + destruct (filepath.Rel _ _) as [currentTrimmedPath [err'|]]; [done | ].
      destruct err as [err|]; [done | apply IH].
Qed.

Lemma symlinkNowhere_withoutSymlinks fs :
  symlinkNowhere (withoutSymlinks fs) = true.
Proof.
  induction fs as [items err Hitems] using ReadDir_tree_ind.
  rewrite withoutSymlinks_items. cbn [symlinkNowhere].
  induction Hitems as [|item items Hitem _ IH]; [done | ].
  destruct item as [name contents | name info err'];
    cbn [withoutSymlinksItems isSymlink].
  - by rewrite Hitem.
  - destruct (notSymlink info) eqn:Hlink; cbn [negb]; [ | done].
    cbn [isSymlink]. by rewrite Hlink.
Qed.

(** The scenarios of the specification: under [root], neither the ignored
    directory nor the file below it nor the symbolic link is recorded, and
    the ignored directory that cannot be read is not read. *)
Example ReadFolder_scenario :
  ReadFolder "root" scenarioTree
  = ({["d" := ()]}, <["f" := 5]> {["d/g" := 9]}, None).
Proof. by vm_compute. Qed.

Lemma ignoredEmptied_items items err :
  ignoredEmptied (readDir items err)
  = readDir (ignoredEmptiedItems items) err.
Proof. reflexivity. Qed.

(** What is below an ignored directory, and whether it can be read, has no
    part in the walk, whatever the walk returns. *)
Lemma readFolder_ignoredEmptied fs :
  ∀ path startingPath folders files,
    readFolder path startingPath (ignoredEmptied fs) folders files
    = readFolder path startingPath fs folders files.
Proof.
  induction fs as [items err Hitems] using ReadDir_tree_ind.
  intros path startingPath folders files.
  destruct err as [err|]; [done | ].
  rewrite ignoredEmptied_items, !readFolder_items. revert folders files.
  induction Hitems as [|item items Hitem _ IH]; intros folders files;
    [done | ].
  destruct item as [name contents | name info err];
    cbn [readFolderItems ignoredEmptiedItems Name].
  - destruct (filepath.Rel _ _) as [currentTrimmedPath [err|]]; [done | ].
    case_bool_decide as Hname; cbn [negb]; [apply IH | ].
    rewrite Hitem.
    destruct (readFolder _ _ contents _ _) as [[folders1 files1] [err|]];
      [done | apply IH].
  - destruct (filepath.Rel _ _) as [currentTrimmedPath [err'|]]; [done | ].
    destruct err as [err|]; [done | ].
    destruct (notSymlink info); apply IH.
Qed.

(** C7: a directory named [dont_mirror] is skipped entirely by
    [ReadFolder]. Whatever the walk returns, it returns the same on the
    tree in which every directory named [dont_mirror] is emptied:
    [ReadFolder] does not recurse into such a directory, and nothing below
    it reaches the DirectorySet or the FileIndex. A walk that returns no
    error returns the folders and files of the tree from which every
    directory named [dont_mirror] is removed with all that is below it:
    the directory itself is not recorded either. *)
Theorem ignored_directories_skipped path fs :
  ReadFolder path (ignoredEmptied fs) = ReadFolder path fs
  ∧ (∀ folders files,
       ReadFolder path fs = (folders, files, None) →
       ReadFolder path (withoutIgnored fs) = (folders, files, None))
  ∧ ignoredNowhere (withoutIgnored fs) = true.
Proof.
  split; [ | split].
  - apply readFolder_ignoredEmptied.
  - intros folders files Hwalk. by apply readFolder_withoutIgnored.
  - apply ignoredNowhere_withoutIgnored.
Qed.

Lemma ignored_directories_skipped_witness :
  ReadFolder "root" (withoutIgnored scenarioTree)
  = ({["d" := ()]}, <["f" := 5]> {["d/g" := 9]}, None).
Proof.
  apply (ignored_directories_skipped "root" scenarioTree).
  by vm_compute.
Defined.

(** A regular file and a symbolic link in one directory: the FileIndex
    holds the regular file alone. *)
Example ReadFolder_fileAndLink :
  ReadFolder "root" fileAndLink = (∅, {["f" := 5]}, None).
Proof. by vm_compute. Qed.

(** C8: symbolic links are never recorded in the FileIndex. A walk that
    returns no error returns the folders and files of the tree from which
    every symbolic link is removed: a directory that holds a regular file
    and a symbolic link gives the FileIndex of the regular file alone. *)
Theorem symlinks_not_recorded path fs folders files :
  ReadFolder path fs = (folders, files, None) →
  ReadFolder path (withoutSymlinks fs) = (folders, files, None)
  ∧ symlinkNowhere (withoutSymlinks fs) = true.
Proof.
  intros Hwalk. split.
  - by apply readFolder_withoutSymlinks.
  - apply symlinkNowhere_withoutSymlinks.
Qed.

Lemma symlinks_not_recorded_witness :
  ReadFolder "root" (withoutSymlinks fileAndLink)
  = (∅, {["f" := 5]}, None)
  ∧ symlinkNowhere (withoutSymlinks fileAndLink) = true.
Proof.
  apply (symlinks_not_recorded "root" fileAndLink).
  by vm_compute.
Defined.

(** * Further properties of the package *)

(** ** The four diffs together *)

Lemma lookup_MissingFiles (dst src : File) file size :
  (MissingFiles dst src).1 !! file = Some size
  ↔ src !! file = Some size ∧ dst !! file ≠ Some size.
Proof. rewrite MissingFiles_filter. apply map_lookup_filter_Some. Qed.

Lemma lookup_FilesToClean (dst src : File) file size :
  (FilesToClean dst src).1 !! file = Some size
  ↔ dst !! file = Some size ∧ src !! file = None.
Proof. rewrite FilesToClean_filter. apply map_lookup_filter_Some. Qed.

Lemma lookup_MissingFolders_None (dst src : Folder) folder :
  MissingFolders dst src !! folder = None
  ↔ src !! folder = None ∨ is_Some (dst !! folder).
Proof.
  rewrite eq_None_not_Some, lookup_MissingFolders.
  rewrite <- (not_eq_None_Some (dst !! folder)).
  destruct (src !! folder) as [[]|], (dst !! folder) as [[]|];
    split; try done; try (by intros _; left); try (by intros _; right).
  - intros _ [_ [=]].
  - intros H. destruct H. split; [by eexists | done].
  - intros [[=] | Hn]. by destruct Hn.
  - intros _ [[? [=]] _].
  - intros _ [[? [=]] _].
Qed.

(** X1: the files analogue of the folder diffs. For all file indexes, the
    keys of [MissingFiles dst src] and of [FilesToClean dst src] are
    disjoint, every entry of [MissingFiles dst src] is an entry of [src]
    (same path, same size), and every entry of [FilesToClean dst src] is an
    entry of [dst]. *)
Theorem file_diffs_disjoint_subsets (dst src : File) :
  dom (MissingFiles dst src).1 ## dom (FilesToClean dst src).1
  ∧ (MissingFiles dst src).1 ⊆ src
  ∧ (FilesToClean dst src).1 ⊆ dst.
Proof.
  split; [ | split].
  - intros file [v Hv]%elem_of_dom [w Hw]%elem_of_dom.
    apply lookup_MissingFiles in Hv as [Hv _].
    apply lookup_FilesToClean in Hw as [_ Hw]. congruence.
  - apply map_subseteq_spec. intros file size Hv.
    by apply lookup_MissingFiles in Hv as [Hv _].
  - apply map_subseteq_spec. intros file size Hv.
    by apply lookup_FilesToClean in Hv as [Hv _].
Qed.

(** X2: copy mode has nothing to do exactly when the source is contained in
    the destination. [MissingFolders dst src] is empty if and only if every
    folder of [src] is a folder of [dst]; [MissingFiles dst src] returns no
    file if and only if every file of [src] is in [dst] with the same size,
    and then the returned total is 0. *)
Theorem nothing_to_copy_iff (dstF srcF : Folder) (dstX srcX : File) :
  (MissingFolders dstF srcF = ∅ ↔ dom srcF ⊆ dom dstF)
  ∧ ((MissingFiles dstX srcX).1 = ∅ ↔ srcX ⊆ dstX)
  ∧ ((MissingFiles dstX srcX).1 = ∅ → (MissingFiles dstX srcX).2 = 0).
Proof.
  split; [ | split].
  - rewrite map_empty. split.
    + intros Hnone folder [v Hv]%elem_of_dom. apply elem_of_dom.
      specialize (Hnone folder).
      apply lookup_MissingFolders_None in Hnone as [Hn | Hd]; [ | done].
      congruence.
    + intros Hsub folder. apply lookup_MissingFolders_None.
      destruct (srcF !! folder) as [v|] eqn:Hsrc; [right | by left].
      apply elem_of_dom, Hsub, elem_of_dom. eauto.
  - rewrite map_empty, map_subseteq_spec. split.
    + intros Hnone file size Hsrc.
      destruct (decide (dstX !! file = Some size)) as [ | Hne]; [done | ].
      specialize (Hnone file).
      assert ((MissingFiles dstX srcX).1 !! file = Some size) as Hin
        by (by apply lookup_MissingFiles).
      congruence.
    + intros Hsub file. apply eq_None_not_Some. intros [size Hin].
      apply lookup_MissingFiles in Hin as [Hsrc Hne]. by apply Hne, Hsub.
  - rewrite MissingFiles_filter; simpl. intros ->.
    by rewrite sumSizes_empty.
Qed.

Lemma clean_diffs_empty_iff (dstF srcF : Folder) (dstX srcX : File) :
  (FoldersToClean dstF srcF = ∅ ↔ dom dstF ⊆ dom srcF)
  ∧ ((FilesToClean dstX srcX).1 = ∅ ↔ dom dstX ⊆ dom srcX)
  ∧ ((FilesToClean dstX srcX).1 = ∅ → (FilesToClean dstX srcX).2 = 0).
Proof.
  split; [ | split].
  - rewrite map_empty. split.
    + intros Hnone folder [v Hv]%elem_of_dom. apply elem_of_dom.
      specialize (Hnone folder). apply not_eq_None_Some. intros Hsrc.
      assert (is_Some (FoldersToClean dstF srcF !! folder)) as [u Hu]
        by (apply lookup_FoldersToClean; eauto).
      congruence.
    + intros Hsub folder. apply eq_None_not_Some. intros Hin.
      apply lookup_FoldersToClean in Hin as [Hdst Hsrc].
      apply elem_of_dom, Hsub, elem_of_dom in Hdst as [v Hv]. congruence.
  - rewrite map_empty. split.
    + intros Hnone file [v Hv]%elem_of_dom. apply elem_of_dom.
      specialize (Hnone file). apply not_eq_None_Some. intros Hsrc.
      assert ((FilesToClean dstX srcX).1 !! file = Some v) as Hin
        by (by apply lookup_FilesToClean).
      congruence.
    + intros Hsub file. apply eq_None_not_Some. intros [size Hin].
      apply lookup_FilesToClean in Hin as [Hdst Hsrc].
      assert (file ∈ dom srcX) as [v Hv]%elem_of_dom
        by (apply Hsub, elem_of_dom; eauto).
      congruence.
  - rewrite FilesToClean_filter; simpl. intros ->.
    by rewrite sumSizes_empty.
Qed.

(** X3: clean mode has nothing to do exactly when the destination holds
    nothing that the source lacks. [FoldersToClean dst src] is empty if and
    only if every folder of [dst] is a folder of [src]; [FilesToClean dst
    src] returns no file if and only if every path of [dst] is a path of
    [src], whatever the sizes, and then the returned total is 0. *)
Theorem nothing_to_clean_iff (dstF srcF : Folder) (dstX srcX : File) :
  (FoldersToClean dstF srcF = ∅ ↔ dom dstF ⊆ dom srcF)
  ∧ ((FilesToClean dstX srcX).1 = ∅ ↔ dom dstX ⊆ dom srcX)
  ∧ ((FilesToClean dstX srcX).1 = ∅ → (FilesToClean dstX srcX).2 = 0).
Proof. apply clean_diffs_empty_iff. Qed.

(** X4: copying and cleaning together mirror the source. When the entries
    of [MissingFolders] and [MissingFiles] are written into the destination
    (a copied file takes the size of the source) and the entries of
    [FoldersToClean] and [FilesToClean], all four computed before any
    change, are removed from it, the folders and the file index of the
    destination are those of the source: what the package's tests
    [TestCleanFolders], [TestCopyFiles] and [TestCleanFiles] assert. *)
Theorem copy_and_clean_mirror (dstF srcF : Folder) (dstX srcX : File) :
  (MissingFolders dstF srcF ∪ dstF) ∖ FoldersToClean dstF srcF = srcF
  ∧ ((MissingFiles dstX srcX).1 ∪ dstX) ∖ (FilesToClean dstX srcX).1 = srcX.
Proof.
  split; apply map_eq; intros k; apply option_eq; intros v;
    rewrite lookup_difference_Some, lookup_union_Some_raw.
  - destruct v. split.
    + intros [[Hin | [_ Hdst]] Hclean].
      * assert (is_Some (MissingFolders dstF srcF !! k)) as Hm by eauto.
        apply lookup_MissingFolders in Hm as [[[] Hsrc] _]. done.
      * destruct (srcF !! k) as [[]|] eqn:Hsrc; [done | ].
        assert (is_Some (FoldersToClean dstF srcF !! k)) as [u Hu]
          by (apply lookup_FoldersToClean; eauto).
        congruence.
    + intros Hsrc. split.
      * destruct (dstF !! k) as [[]|] eqn:Hdst.
        -- right. split; [ | done]. apply lookup_MissingFolders_None. eauto.
        -- left.
           assert (is_Some (MissingFolders dstF srcF !! k)) as [[] Hu]
             by (apply lookup_MissingFolders; eauto).
           done.
      * apply eq_None_not_Some. intros Hin.
        apply lookup_FoldersToClean in Hin as [_ Hn]. congruence.
  - split.
    + intros [[Hin | [Hnot Hdst]] Hclean].
      * by apply lookup_MissingFiles in Hin as [Hsrc _].
      * destruct (srcX !! k) as [w|] eqn:Hsrc.
        -- destruct (decide (w = v)) as [-> | Hne]; [done | ].
           assert ((MissingFiles dstX srcX).1 !! k = Some w) as Hin
             by (apply lookup_MissingFiles; split; congruence).
           congruence.
        -- assert ((FilesToClean dstX srcX).1 !! k = Some v) as Hin
             by (by apply lookup_FilesToClean).
           congruence.
    + intros Hsrc. split.
      * destruct (decide (dstX !! k = Some v)) as [Hdst | Hne].
        -- right. split; [ | done]. apply eq_None_not_Some. intros [w Hin].
           apply lookup_MissingFiles in Hin as [Hw Hd]. congruence.
        -- left. by apply lookup_MissingFiles.
      * apply eq_None_not_Some. intros [w Hin].
        apply lookup_FilesToClean in Hin as [_ Hn]. congruence.
Qed.

(** X5: a second run of the cleaning has nothing to do. After the entries
    of [FoldersToClean dstF srcF] and of [FilesToClean dstX srcX] are
    removed from the destination, the same two diffs against the same
    source return no folder, no file and the total size 0. *)
Theorem second_clean_diff_empty (dstF srcF : Folder) (dstX srcX : File) :
  FoldersToClean (dstF ∖ FoldersToClean dstF srcF) srcF = ∅
  ∧ FilesToClean (dstX ∖ (FilesToClean dstX srcX).1) srcX = (∅, 0).
Proof.
  split.
  - apply (proj1 (clean_diffs_empty_iff _ srcF ∅ ∅)).
    intros folder [v Hv]%elem_of_dom.
    apply lookup_difference_Some in Hv as [Hdst Hclean].
    apply elem_of_dom, not_eq_None_Some. intros Hsrc.
    assert (is_Some (FoldersToClean dstF srcF !! folder)) as [u Hu]
      by (apply lookup_FoldersToClean; eauto).
    congruence.
  - assert ((FilesToClean (dstX ∖ (FilesToClean dstX srcX).1) srcX).1 = ∅)
      as Hempty.
    { apply (proj1 (proj2 (clean_diffs_empty_iff ∅ ∅ _ srcX))).
      intros file [v Hv]%elem_of_dom.
      apply lookup_difference_Some in Hv as [Hdst Hclean].
      apply elem_of_dom, not_eq_None_Some. intros Hsrc.
      assert ((FilesToClean dstX srcX).1 !! file = Some v) as Hin
        by (by apply lookup_FilesToClean).
      congruence. }
    pose proof (proj2 (proj2 (clean_diffs_empty_iff ∅ ∅ _ srcX)) Hempty)
      as Htotal.
    destruct (FilesToClean _ srcX) as [res total]; simpl in *. congruence.
Qed.

(** ** The sorted keys and the order of the two plans *)




Lemma sortedKeys_NoDup {V} (m : gmap string V) : NoDup (sortedKeys m).
Proof.
  rewrite sortedKeys_Permutation. apply NoDup_fst_map_to_list.
Qed.

Lemma sortedKeys_StronglySorted {V} (m : gmap string V) :
  StronglySorted String.le (sortedKeys m).
Proof. apply Sorted_StronglySorted; [apply _ | apply sortedKeys_Sorted]. Qed.



(** X6: [sortFoldersOrFiles] returns the keys of a [Folder] or of a [File]
    in ascending byte order, each key once (so as many as the map has
    entries), and panics with [ErrOnlyFoldersOrFiles] on a value of any
    other type. *)
Theorem sortFoldersOrFiles_keys (folders : Folder) (files : File) :
  (∃ l, sortFoldersOrFiles (AnyFolder folders) = Ok l
        ∧ StronglySorted String.le l ∧ NoDup l
        ∧ (∀ k, k ∈ l ↔ k ∈ dom folders)
        ∧ length l = size folders)
  ∧ (∃ l, sortFoldersOrFiles (AnyFile files) = Ok l
          ∧ StronglySorted String.le l ∧ NoDup l
          ∧ (∀ k, k ∈ l ↔ k ∈ dom files)
          ∧ length l = size files)
  ∧ sortFoldersOrFiles AnyOther = Panic ErrOnlyFoldersOrFiles.
Proof.
  split; [ | split; [ | done]].
  - exists (sortedKeys folders). split; [done | ].
    split; [apply sortedKeys_StronglySorted | ].
    split; [apply sortedKeys_NoDup | ].
    split; [apply elem_of_sortedKeys | apply length_sortedKeys].
  - exists (sortedKeys files). split; [done | ].
    split; [apply sortedKeys_StronglySorted | ].
    split; [apply sortedKeys_NoDup | ].
    split; [apply elem_of_sortedKeys | apply length_sortedKeys].
Qed.





(** An element that the test keeps beside every other element of a list
    without repeats is kept by the pass. *)
Lemma keptAdjacent_keeps (keep : string → string → bool) l z p :
  NoDup l → last l = Some z → p ∈ l →
  (∀ q, q ∈ l → q ≠ p → keep p q = true) →
  p ∈ keptAdjacent keep l ++ [z].
Proof.
  induction l as [|x [|y l] IH]; intros Hnodup Hlast Hp Hkeep.
  - by apply elem_of_nil in Hp.
  - injection Hlast as <-. done.
  - change (last (x :: y :: l)) with (last (y :: l)) in Hlast.
    apply NoDup_cons in Hnodup as [Hx Hnodup]. cbn [keptAdjacent].
    apply elem_of_cons in Hp as [-> | Hp].
    + rewrite Hkeep; [apply list_elem_of_here | apply list_elem_of_further,
        list_elem_of_here | ].
      intros ->. apply Hx, list_elem_of_here.
    + apply kept_further, IH; [done | done | done | ].
      intros q Hq. apply Hkeep. by apply list_elem_of_further.
Qed.

(** X9: a folder that is a string prefix of no other folder of the map is
    never dropped from the creation order: every deepest folder gets its
    own [os.MkdirAll]. *)
Theorem creation_order_keeps_leaves (folders : Folder) p :
  p ∈ dom folders →
  (∀ q, q ∈ dom folders → q ≠ p → HasPrefix q p = false) →
  ∃ res, keepFoldersWithLongestPrefix folders = Ok res ∧ p ∈ res.
Proof.
  intros Hp Hleaf.
  assert (folders ≠ ∅) as Hne by (intros ->; by rewrite dom_empty_L in Hp).
  pose proof (sortedKeys_nonempty folders Hne) as Hsorted.
  destruct (last_snoc_inv _ Hsorted) as (l & z & Hlast).
  eexists. split; [by apply keepFoldersWithLongestPrefix_pass | ].
  rewrite <- Hlast. apply keptAdjacent_keeps.
  - apply sortedKeys_NoDup.
  - rewrite Hlast. apply last_snoc.
  - by apply elem_of_sortedKeys.
  - intros q Hq Hne'. unfold keptBeside.
    rewrite (Hleaf q); [apply orb_true_r | | done].
    by apply elem_of_sortedKeys.
Qed.

Lemma creation_order_keeps_leaves_witness :
  ∃ res, keepFoldersWithLongestPrefix abAndAbcD = Ok res ∧ "abc/d" ∈ res.
Proof.
  apply (creation_order_keeps_leaves abAndAbcD "abc/d").
  - unfold abAndAbcD. rewrite dom_insert_L, dom_singleton_L.
    apply elem_of_union. right. by apply elem_of_singleton.
  - unfold abAndAbcD. rewrite dom_insert_L, dom_singleton_L.
    intros q [->%elem_of_singleton | ->%elem_of_singleton]%elem_of_union Hne;
      done.
Defined.

(** X10: a folder that has no other folder of the map as a string prefix
    is never dropped from the deletion order: the top of every subtree to
    remove gets its own [os.RemoveAll]. *)
Theorem deletion_order_keeps_roots (folders : Folder) p :
  p ∈ dom folders →
  (∀ q, q ∈ dom folders → q ≠ p → HasPrefix p q = false) →
  ∃ res, keepFoldersWithShortestPrefix folders = Ok res ∧ p ∈ res.
Proof.
  intros Hp Hroot.
  assert (folders ≠ ∅) as Hne by (intros ->; by rewrite dom_empty_L in Hp).
  pose proof (sortedKeys_nonempty folders Hne) as Hsorted.
  destruct (sortedKeys folders) as [|x l] eqn:Hfirst; [done | ].
  assert (∀ q, q ∈ reverse (x :: l) ↔ q ∈ dom folders) as Hdom.
  { intros q. by rewrite elem_of_reverse, <- Hfirst, elem_of_sortedKeys. }
  eexists. split; [by apply keepFoldersWithShortestPrefix_pass | ].
  apply keptAdjacent_keeps.
  - rewrite reverse_Permutation, <- Hfirst. apply sortedKeys_NoDup.
  - by rewrite reverse_cons, last_snoc.
  - by apply Hdom.
  - intros q Hq Hne'. unfold keptBeside.
    rewrite (Hroot q); [apply orb_true_r | by apply Hdom | done].
Qed.

Lemma deletion_order_keeps_roots_witness :
  ∃ res, keepFoldersWithShortestPrefix abAndAbcD = Ok res ∧ "ab" ∈ res.
Proof.
  apply (deletion_order_keeps_roots abAndAbcD "ab").
  - unfold abAndAbcD. rewrite dom_insert_L, dom_singleton_L.
    apply elem_of_union. left. by apply elem_of_singleton.
  - unfold abAndAbcD. rewrite dom_insert_L, dom_singleton_L.
    intros q [->%elem_of_singleton | ->%elem_of_singleton]%elem_of_union Hne;
      done.
Defined.

(** ** The walk and the maps it fills *)

Lemma union_insert_empty {V} (f m : gmap string V) k v :
  (f ∪ <[k := v]> ∅) ∪ m = f ∪ <[k := v]> m.
Proof.
  by rewrite insert_empty, <- (assoc_L (∪)), <- insert_union_singleton_l.
Qed.

(** The walk lays what it finds over the maps it is given. *)
Lemma readFolder_laidOver fs :
  ∀ path startingPath folders files,
    readFolder path startingPath fs folders files
    = laidOver (readFolder path startingPath fs ∅ ∅) folders files.
Proof.
  induction fs as [items err Hitems] using ReadDir_tree_ind.
  intros path startingPath folders files.
  assert (∀ (F : Folder) (X : File) e,
            (F, X, e) = laidOver (∅, ∅, e) F X) as Hstop
    by (intros; unfold laidOver; simpl; by rewrite !(left_id_L ∅ (∪))).
  destruct err as [err|]; [apply Hstop | ].
  rewrite !readFolder_items. revert folders files.
  induction Hitems as [|item items Hitem _ IH]; intros folders files;
    [apply Hstop | ].
  destruct item as [name contents | name info err];
    cbn [readFolderItems Name].
  - destruct (filepath.Rel _ _) as [currentTrimmedPath [err|]];
      [apply Hstop | ].
    destruct (negb _); [ | apply IH].
    rewrite (Hitem _ _ (<[currentTrimmedPath := ()]> folders)).
    rewrite (Hitem _ _ (<[currentTrimmedPath := ()]> ∅)).
    destruct (readFolder _ _ contents ∅ ∅) as [[f x] [err|]].
    + unfold laidOver; simpl.
      by rewrite union_insert_empty, !(right_id_L ∅ (∪)).
    + unfold laidOver at 1 3; cbn [fst snd].
      rewrite (IH (f ∪ <[currentTrimmedPath := ()]> folders)).
      rewrite (IH (f ∪ <[currentTrimmedPath := ()]> ∅)).
      unfold laidOver; simpl.
      rewrite (right_id_L ∅ (∪) x).
      rewrite <- (assoc_L (∪) _ (f ∪ _) folders), union_insert_empty.
      by rewrite <- (assoc_L (∪) _ x files).
  - destruct (filepath.Rel _ _) as [currentTrimmedPath [err'|]];
      [apply Hstop | ].
    destruct err as [err|]; [apply Hstop | ].
    destruct (notSymlink info); [ | apply IH].
    rewrite (IH ∅ (<[currentTrimmedPath := Size info]> ∅)), (IH folders).
    unfold laidOver; cbn [fst snd].
    by rewrite union_insert_empty, !(right_id_L ∅ (∪)).
Qed.

(** X11: [readFolder] only adds to the two maps it is given. Whatever the
    maps hold at the call, it returns what the same walk finds from empty
    maps, laid over them: no entry is removed, a folder already there
    stays, a file already there keeps its size unless the walk finds the
    same path again, and the error is the same. *)
Theorem readFolder_adds_to_maps path startingPath fs
    (folders : Folder) (files : File) :
  ∃ found sizes err,
    readFolder path startingPath fs ∅ ∅ = (found, sizes, err)
    ∧ readFolder path startingPath fs folders files
      = (found ∪ folders, sizes ∪ files, err)
    ∧ dom folders ⊆ dom (found ∪ folders)
    ∧ dom files ⊆ dom (sizes ∪ files).
Proof.
  destruct (readFolder path startingPath fs ∅ ∅) as [[found sizes] err]
    eqn:Hwalk.
  exists found, sizes, err. split; [done | ]. split.
  - by rewrite readFolder_laidOver, Hwalk.
  - rewrite !dom_union_L. split; apply union_subseteq_r.
Qed.

Lemma allRead_items items err :
  allRead (readDir items err)
  = bool_decide (err = None) && allReadItems items.
Proof.
  cbn [allRead]. by f_equal.
Qed.

(** A walk that returns no error has read every directory it went into
    and the [Info()] of every other entry it met. *)
Lemma readFolder_allRead fs :
  ∀ path startingPath folders files folders' files',
    readFolder path startingPath fs folders files = (folders', files', None) →
    allRead (withoutIgnored fs) = true.
Proof.
  induction fs as [items err Hitems] using ReadDir_tree_ind.
  intros path startingPath folders files folders' files'.
  destruct err as [err|]; [done | ].
  rewrite withoutIgnored_items, allRead_items, readFolder_items.
  cbn [bool_decide decide_rel andb]. rewrite bool_decide_eq_true_2 by done.
  cbn [andb]. revert folders files.
  induction Hitems as [|item items Hitem _ IH]; intros folders files;
    [done | ].
  destruct item as [name contents | name info err];
    cbn [readFolderItems withoutIgnoredItems Name].
  - destruct (filepath.Rel _ _) as [currentTrimmedPath [err|]]; [done | ].
    case_bool_decide as Hname; cbn [negb]; [apply IH | ].
    destruct (readFolder _ _ contents _ _) as [[folders1 files1] [err|]]
      eqn:Hcontents; [done | ].
    intros Hrest. cbn [allReadItems].
    rewrite (Hitem _ _ _ _ _ _ Hcontents). by apply IH in Hrest.
  - destruct (filepath.Rel _ _) as [currentTrimmedPath [err'|]]; [done | ].
    destruct err as [err|]; [done | ]. cbn [allReadItems].
    rewrite bool_decide_eq_true_2 by done.
    destruct (notSymlink info); apply IH.
Qed.

(** X12: [ReadFolder] returns a nil error only when nothing failed on its
    way. In the tree without the ignored directories, every directory was
    listed without error and every other entry, a symbolic link included,
    gave its [Info()] without error: the walk skips no unreadable
    directory and no entry silently. *)
Theorem ReadFolder_nil_error_all_read path fs folders files :
  ReadFolder path fs = (folders, files, None) →
  allRead (withoutIgnored fs) = true.
Proof. apply readFolder_allRead. Qed.

Lemma ReadFolder_nil_error_all_read_witness :
  allRead (withoutIgnored scenarioTree) = true.
Proof.
  apply (ReadFolder_nil_error_all_read "root" scenarioTree
           {["d" := ()]} (<["f" := 5]> {["d/g" := 9]})).
  by vm_compute.
Defined.

(** A link whose [Info()] fails makes the walk fail, with the folder
    above it already recorded. *)
Example ReadFolder_brokenLink :
  ReadFolder "root" brokenLink
  = ({["d" := ()]}, ∅, Some "lstat d/l: no such file or directory").
Proof. by vm_compute. Qed.

(** ** [ThousandSeparator] and [BytesToMB] *)

Lemma append_cons (c : ascii) (s t : string) :
  String c s +:+ t = String c (s +:+ t).
Proof. done. Qed.

Lemma append_nil_r (s : string) : s +:+ "" = s.
Proof. induction s as [|c s IH]; [done|]. by rewrite append_cons, IH. Qed.

Lemma append_assoc (a b c : string) : (a +:+ b) +:+ c = a +:+ (b +:+ c).
Proof. induction a as [|x a IH]; [done|]. by rewrite !append_cons, IH. Qed.

Lemma length_append (a b : string) :
  String.length (a +:+ b) = (String.length a + String.length b)%nat.
Proof.
  induction a as [|x a IH]; [done|]. rewrite append_cons. cbn. by rewrite IH.
Qed.

Lemma sliceTo_append (a b : string) : sliceTo (a +:+ b) (String.length a) = a.
Proof.
  induction a as [|x a IH]; [by destruct b|].
  rewrite append_cons. cbn. by rewrite IH.
Qed.

Lemma sliceFrom_append (a b : string) :
  sliceFrom (a +:+ b) (String.length a) = b.
Proof.
  induction a as [|x a IH]; [by destruct b|].
  rewrite append_cons. cbn. by rewrite IH.
Qed.

Lemma slices_append (s : string) (k : nat) : sliceTo s k +:+ sliceFrom s k = s.
Proof.
  revert s. induction k as [|k IH]; intros [|c s]; cbn; try done.
  by rewrite append_cons, IH.
Qed.

Lemma length_sliceTo (s : string) (k : nat) :
  (k ≤ String.length s)%nat → String.length (sliceTo s k) = k.
Proof.
  revert s. induction k as [|k IH]; intros [|c s]; cbn; try done; try lia.
  intros Hk. rewrite IH; lia.
Qed.

Lemma length_sliceFrom (s : string) (k : nat) :
  String.length (sliceFrom s k) = (String.length s - k)%nat.
Proof.
  revert s. induction k as [|k IH]; intros [|c s]; cbn; try done.
Qed.

(** The depth of the calls: any [fuel] from [len(n)] on gives the same. *)
Lemma ThousandSeparatorFuel_enough (fuel fuel' : nat) (n : string) :
  (String.length n ≤ fuel)%nat → (String.length n ≤ fuel')%nat →
  ThousandSeparatorFuel fuel n = ThousandSeparatorFuel fuel' n.
Proof.
  revert fuel' n. induction fuel as [|fuel IH]; intros fuel' n Hf Hf'.
  - destruct n; [|cbn in Hf; lia]. by destruct fuel'.
  - destruct fuel' as [|fuel'].
    + destruct n; [done|cbn in Hf'; lia].
    + cbn [ThousandSeparatorFuel].
      destruct (String.length n <? 4)%nat eqn:Hlen; [done|].
      apply Nat.ltb_ge in Hlen.
      rewrite (IH fuel'); [done| |]; rewrite length_sliceTo; lia.
Qed.

(** The function satisfies the equation that defines it in the source. *)
Lemma ThousandSeparator_eq (n : string) :
  ThousandSeparator n =
    if (String.length n <? 4)%nat then n
    else (ThousandSeparator (sliceTo n (String.length n - 3)) +:+ " ")
           +:+ sliceFrom n (String.length n - 3).
Proof.
  unfold ThousandSeparator at 1.
  destruct (String.length n) as [|k] eqn:Hk; [done|].
  cbn [ThousandSeparatorFuel]. rewrite Hk.
  destruct (S k <? 4)%nat eqn:Hlen; [done|].
  apply Nat.ltb_ge in Hlen. unfold ThousandSeparator.
  rewrite (ThousandSeparatorFuel_enough k
             (String.length (sliceTo n (S k - 3)))); [done| |done];
    rewrite length_sliceTo; lia.
Qed.

Lemma removeSpaces_append (a b : string) :
  removeSpaces (a +:+ b) = removeSpaces a +:+ removeSpaces b.
Proof.
  induction a as [|x a IH]; [done|]. rewrite append_cons. cbn.
  case_bool_decide; [done|]. by rewrite append_cons, IH.
Qed.

Lemma concatS_app (l k : list string) :
  concatS (l ++ k) = concatS l +:+ concatS k.
Proof.
  induction l as [|s l IH]; [done|]. cbn. by rewrite IH, append_assoc.
Qed.

Lemma length_concatS_groups (gs : list string) :
  Forall (λ g, String.length g = 3%nat) gs →
  String.length (concatS gs) = (3 * length gs)%nat.
Proof.
  induction 1 as [|g gs Hg _ IH]; [done|].
  cbn. rewrite length_append, Hg, IH. lia.
Qed.

(** The example of the package's comment and the inputs of its test. *)
Example TestThousandSeparator :
  ThousandSeparator "1000000" = "1 000 000"
  ∧ ThousandSeparator "100" = "100"
  ∧ ThousandSeparator "1000" = "1 000"
  ∧ ThousandSeparator "10000000000" = "10 000 000 000".
Proof. by vm_compute. Qed.

(** X13: [ThousandSeparator] cuts its argument into groups of three bytes
    from the right: a string made of a head of one to three bytes followed
    by any number of groups of three bytes is returned with one space before
    each of the groups, and nothing else changed. (Every string of at least
    one byte is such a string; the empty string is returned as it is.) *)
Theorem ThousandSeparator_groups (h : string) (gs : list string) :
  (1 ≤ String.length h ≤ 3)%nat →
  Forall (λ g, String.length g = 3%nat) gs →
  ThousandSeparator (h +:+ concatS gs) =
    h +:+ concatS ((λ g, " " +:+ g) <$> gs).
Proof.
  intros Hh. induction gs as [|g gs IH] using rev_ind; intros Hgs.
  - cbn. rewrite append_nil_r, ThousandSeparator_eq.
    by destruct (String.length h <? 4)%nat eqn:Hlen;
      [|apply Nat.ltb_ge in Hlen; lia].
  - apply Forall_app in Hgs as [Hgs Hg].
    rewrite Forall_singleton in Hg.
    rewrite ThousandSeparator_eq.
    rewrite concatS_app. cbn [concatS]. rewrite append_nil_r.
    rewrite <-append_assoc.
    assert (String.length ((h +:+ concatS gs) +:+ g) - 3
            = String.length (h +:+ concatS gs))%nat as ->
      by (rewrite (length_append _ g), Hg; lia).
    rewrite sliceTo_append, sliceFrom_append.
    destruct (_ <? 4)%nat eqn:Hlen.
    { apply Nat.ltb_lt in Hlen.
      rewrite !length_append, Hg in Hlen. lia. }
    rewrite (IH Hgs), fmap_app, concatS_app. cbn.
    by rewrite append_nil_r, !append_assoc.
Qed.

Lemma ThousandSeparator_groups_witness :
  ThousandSeparator ("10" +:+ concatS ["000"; "000"; "000"]) =
    "10" +:+ concatS ((λ g, " " +:+ g) <$> ["000"; "000"; "000"]).
Proof.
  apply ThousandSeparator_groups; [cbn; lia|].
  by repeat constructor.
Defined.

Lemma removeSpaces_ThousandSeparator (n : string) :
  removeSpaces (ThousandSeparator n) = removeSpaces n.
Proof.
  remember (String.length n) as k eqn:Hk.
  revert n Hk. induction (lt_wf k) as [k _ IH]. intros n Hk.
  rewrite ThousandSeparator_eq, <-Hk.
  destruct (k <? 4)%nat eqn:Hlen; [done|].
  apply Nat.ltb_ge in Hlen.
  rewrite !removeSpaces_append, (IH (k - 3)%nat).
  - change (removeSpaces " ") with "". rewrite append_nil_r.
    by rewrite <-removeSpaces_append, slices_append.
  - lia.
  - rewrite length_sliceTo; lia.
Qed.

(** X14: [ThousandSeparator] adds spaces and nothing else, and as many as
    there are full groups of three bytes after the first byte: without its
    spaces the result is the argument without its spaces, and the result is
    [(len(n) - 1) / 3] bytes longer than a non-empty argument [n]. *)
Theorem ThousandSeparator_adds_spaces_only (n : string) :
  removeSpaces (ThousandSeparator n) = removeSpaces n
  ∧ String.length (ThousandSeparator n)
    = (String.length n + (String.length n - 1) / 3)%nat.
Proof.
  split; [apply removeSpaces_ThousandSeparator|].
  remember (String.length n) as k eqn:Hk.
  revert n Hk. induction (lt_wf k) as [k _ IH]. intros n Hk.
  rewrite ThousandSeparator_eq, <-Hk.
  destruct (k <? 4)%nat eqn:Hlen.
  - apply Nat.ltb_lt in Hlen. rewrite <-Hk, Nat.div_small; lia.
  - apply Nat.ltb_ge in Hlen.
    rewrite !length_append, (IH (k - 3)%nat), length_sliceFrom, <-Hk.
    + change (String.length " ") with 1%nat.
      assert ((k - 1) / 3 = (k - 3 - 1) / 3 + 1)%nat as ->; [|lia].
      replace (k - 1)%nat with ((k - 3 - 1) + 1 * 3)%nat at 1 by lia.
      by rewrite Nat.div_add.
    + lia.
    + rewrite length_sliceTo; lia.
Qed.

Lemma removeSpaces_string_of_uint (d : Decimal.uint) :
  removeSpaces (DecimalString.NilEmpty.string_of_uint d)
  = DecimalString.NilEmpty.string_of_uint d.
Proof. induction d as [|d IH|d IH|d IH|d IH|d IH|d IH|d IH|d IH|d IH|d IH];
  [done|..]; cbn; case_bool_decide; (done || by rewrite IH).
Qed.

(** [FormatInt] writes no space. *)
Lemma removeSpaces_FormatInt (i : Z) : removeSpaces (FormatInt i) = FormatInt i.
Proof.
  unfold FormatInt.
  assert (∀ d, removeSpaces (DecimalString.NilZero.string_of_uint d)
               = DecimalString.NilZero.string_of_uint d) as Huint.
  { intros d. pose proof (removeSpaces_string_of_uint d) as Hd.
    by destruct d. }
  destruct i as [|p|p]; cbn; [done|apply Huint|].
  case_bool_decide; [done|]. by rewrite Huint.
Qed.

(** [FormatInt] writes a numeral of its argument. *)
Lemma parseDecimal_FormatInt (i : Z) : parseDecimal (FormatInt i) = Some i.
Proof.
  unfold parseDecimal, FormatInt.
  rewrite DecimalString.NilZero.isi.
  - cbn. by rewrite DecimalZ.of_to.
  - destruct i as [|p|p]; [done| |done].
    intros [= Hp]. by apply DecimalPos.Unsigned.to_uint_nonnil in Hp.
  - destruct i as [|p|p]; [done|done|].
    intros [= Hp]. by apply DecimalPos.Unsigned.to_uint_nonnil in Hp.
Qed.

(** Sizes from one byte to thirteen digits, and sizes below zero (a total
    that wrapped around): the quotient is truncated toward zero, and the sign
    of a negative numeral of three, six, ... digits stands apart. *)
Example BytesToMB_examples :
  BytesToMB 999999 = "0" ∧ BytesToMB 1000000 = "1"
  ∧ BytesToMB 1234567890123 = "1 234 567"
  ∧ BytesToMB (-999999) = "0" ∧ BytesToMB (-100000000) = "- 100".
Proof. by vm_compute. Qed.

(** X15: [BytesToMB] shows the whole number of megabytes (of [10^6] bytes)
    in [size], rounded toward zero: the text it returns, read without the
    spaces of [ThousandSeparator], is a decimal numeral of the quotient of
    [size] by [10^6] truncated toward zero. *)
Theorem BytesToMB_reads_back (size : Z) :
  parseDecimal (removeSpaces (BytesToMB size)) = Some (size `quot` 10 ^ 6).
Proof.
  unfold BytesToMB.
  by rewrite removeSpaces_ThousandSeparator, removeSpaces_FormatInt,
    parseDecimal_FormatInt.
Qed.

(** ** The progress lines *)

(** The step that both functions end with, at a percentage within
    [0..100] and a sum of logged percentages within [0..190]. *)
Lemma logged_small (rlp p : Z) :
  0 ≤ rlp ≤ 190 → 0 ≤ p ≤ 100 →
  add64 rlp 10 = rlp + 10 ∧ add64 rlp p = rlp + p.
Proof. intros ??. unfold add64. rewrite !wrap64_small; lia. Qed.

Lemma outgrows_short (sum : Z) (ps : list Z) :
  0 ≤ sum → outgrows sum ps → Forall (λ p, p ≤ 100) ps → (length ps ≤ 4)%nat.
Proof.
  intros Hsum Hps Hle.
  destruct ps as [|a [|b [|c [|d [|e ps]]]]]; cbn; try lia.
  cbn in Hps. rewrite !Forall_cons in Hle. lia.
Qed.

Lemma logProgressFolders_step (rlp counter foldersLen : Z) (msg : string) :
  0 ≤ rlp ≤ 190 → 0 ≤ counter < foldersLen → foldersLen * 100 < 2 ^ 63 →
  ∃ p, p = Z.quot ((counter + 1) * 100) foldersLen ∧ 0 ≤ p ≤ 100
    ∧ logProgressFolders rlp counter foldersLen msg =
        Ok (if rlp + 10 <=? p
            then (rlp + p, counter + 1, [progressLine msg p])
            else (rlp, counter + 1, [])).
Proof.
  intros Hrlp Hc Hlen. eexists; split; [done|].
  assert (0 ≤ Z.quot ((counter + 1) * 100) foldersLen ≤ 100) as Hp.
  { split; [apply Z.quot_pos; lia|].
    apply Z.quot_le_upper_bound; lia. }
  split; [done|].
  unfold logProgressFolders, quo64, mul64, add64.
  rewrite (wrap64_small (counter + 1)) by lia.
  rewrite (wrap64_small ((counter + 1) * 100)) by lia.
  destruct (foldersLen =? 0) eqn:Hz; [lia|]. cbn.
  rewrite (wrap64_small (_ `quot` _)) by lia.
  rewrite (wrap64_small (rlp + 10)) by lia.
  destruct (_ <=? _) eqn:Hlog; [|done].
  rewrite wrap64_small; [done|lia].
Qed.

Lemma logProgressFolders_calls (calls : nat) (rlp counter foldersLen : Z)
    (msg : string) :
  0 ≤ rlp ≤ 190 → 0 ≤ counter → counter + Z.of_nat calls ≤ foldersLen →
  foldersLen * 100 < 2 ^ 63 →
  ∃ ps, logProgressFoldersCalls calls rlp counter foldersLen msg =
          Ok (rlp + sumZ ps, counter + Z.of_nat calls,
              progressLine msg <$> ps)
    ∧ outgrows rlp ps
    ∧ Forall (λ p, ∃ c, counter < c ≤ counter + Z.of_nat calls
                        ∧ p = Z.quot (c * 100) foldersLen) ps
    ∧ Forall (λ p, p ≤ 100) ps.
Proof.
  revert rlp counter. induction calls as [|calls IH];
    intros rlp counter Hrlp Hc Hcalls Hlen.
  { exists []. cbn. by rewrite !Z.add_0_r. }
  destruct (logProgressFolders_step rlp counter foldersLen msg)
    as (p & Hp & Hp100 & Hstep); [lia..|].
  cbn [logProgressFoldersCalls]. rewrite Hstep.
  destruct (rlp + 10 <=? p) eqn:Hlog; cbn [mbind Result_bind].
  - apply Z.leb_le in Hlog.
    destruct (IH (rlp + p) (counter + 1)) as (ps & -> & Hout & Hof & Hle);
      [lia..|].
    exists (p :: ps). cbn. repeat split.
    + unfold sumZ. do 3 f_equal; lia.
    + lia.
    + done.
    + constructor.
      * exists (counter + 1). split; [lia|done].
      * eapply Forall_impl; [exact Hof|].
        intros q (c & ? & ?). exists c. split; [lia|done].
    + constructor; [lia|done].
  - destruct (IH rlp (counter + 1)) as (ps & -> & Hout & Hof & Hle);
      [lia..|].
    exists ps. cbn. repeat split.
    + unfold sumZ. do 3 f_equal; lia.
    + done.
    + eapply Forall_impl; [exact Hof|].
      intros q (c & ? & ?). exists c. split; [lia|done].
    + done.
Qed.

(** Three folders: [33%] and [66%] are printed, and no line for the third;
    four folders: [25%], [50%] and [100%]. *)
Example logProgressFolders_three_and_four :
  logProgressFoldersCalls 3 0 0 3 "making folders:" =
    Ok (99, 3, ["making folders: 33%" +:+ String "010"%char "";
                "making folders: 66%" +:+ String "010"%char ""])
  ∧ logProgressFoldersCalls 4 0 0 4 "making folders:" =
      Ok (175, 4, progressLine "making folders:" <$> [25; 50; 100]).
Proof. by vm_compute. Qed.

(** X16: The progress of [MakeFolders] and [CleanFolders]: the calls of
    [logProgressFolders] for the first [calls] of [foldersLen] folders,
    from the zero values of the two variables, neither panic nor overflow;
    they leave [counter] at [calls] and [recentlyLoggedProgress] at the sum
    of the percentages printed; every line printed shows the percentage
    [c * 100 / foldersLen] reached at one of the calls, which is at most
    100 and at least ten above the sum of all the percentages printed
    before it; so at most four lines are printed, however many folders
    there are. *)
Theorem logProgressFolders_lines (foldersLen : Z) (calls : nat)
    (msg : string) :
  Z.of_nat calls ≤ foldersLen → foldersLen * 100 < 2 ^ 63 →
  ∃ ps, logProgressFoldersCalls calls 0 0 foldersLen msg =
          Ok (sumZ ps, Z.of_nat calls, progressLine msg <$> ps)
    ∧ outgrows 0 ps
    ∧ Forall (λ p, p ≤ 100 ∧ ∃ c, 0 < c ≤ Z.of_nat calls
                                  ∧ p = Z.quot (c * 100) foldersLen) ps
    ∧ (length ps ≤ 4)%nat.
Proof.
  intros Hcalls Hlen.
  destruct (logProgressFolders_calls calls 0 0 foldersLen msg)
    as (ps & Hrun & Hout & Hof & Hle); [lia..|].
  exists ps. split; [done|]. split; [done|]. split.
  - apply Forall_and. split; [done|].
    eapply Forall_impl; [exact Hof|]. intros p (c & ? & ?). by exists c.
  - by apply (outgrows_short 0).
Qed.

Lemma logProgressFolders_lines_witness :
  ∃ ps, logProgressFoldersCalls 7 0 0 7 "removing folders:" =
          Ok (sumZ ps, 7, progressLine "removing folders:" <$> ps)
    ∧ outgrows 0 ps
    ∧ Forall (λ p, p ≤ 100 ∧ ∃ c, 0 < c ≤ 7 ∧ p = Z.quot (c * 100) 7) ps
    ∧ (length ps ≤ 4)%nat.
Proof. apply (logProgressFolders_lines 7 7); [lia|lia]. Defined.

Lemma logProgressFiles_step (rlp totalSize bytesWritten : Z) (msg : string) :
  0 ≤ rlp ≤ 190 → 0 < totalSize → 0 ≤ bytesWritten ≤ totalSize →
  totalSize * 100 < 2 ^ 63 →
  ∃ p, p = Z.quot (bytesWritten * 100) totalSize ∧ 0 ≤ p ≤ 100
    ∧ logProgressFiles rlp totalSize bytesWritten msg =
        if rlp + 10 <=? p then (rlp + p, [progressLine msg p])
        else (rlp, []).
Proof.
  intros Hrlp Htotal Hb Hsmall. eexists; split; [done|].
  assert (0 ≤ Z.quot (bytesWritten * 100) totalSize ≤ 100) as Hp.
  { split; [apply Z.quot_pos; lia|].
    apply Z.quot_le_upper_bound; lia. }
  split; [done|].
  unfold logProgressFiles, mul64, add64.
  destruct (0 <? totalSize) eqn:Hpos; [|lia].
  rewrite (wrap64_small (bytesWritten * 100)) by lia.
  rewrite (wrap64_small (Z.quot _ _)) by lia.
  rewrite (wrap64_small (rlp + 10)) by lia.
  destruct (_ <=? _) eqn:Hlog; [|done].
  rewrite wrap64_small; [done|lia].
Qed.

Lemma logProgressFiles_calls (written : list Z) (rlp totalSize : Z)
    (msg : string) :
  0 ≤ rlp ≤ 190 → 0 < totalSize → totalSize * 100 < 2 ^ 63 →
  Forall (λ b, 0 ≤ b ≤ totalSize) written →
  ∃ ps, logProgressFilesCalls written rlp totalSize msg =
          (rlp + sumZ ps, progressLine msg <$> ps)
    ∧ outgrows rlp ps
    ∧ Forall (λ p, p ≤ 100 ∧ ∃ b, b ∈ written
                                  ∧ p = Z.quot (b * 100) totalSize) ps.
Proof.
  intros Hrlp Htotal Hsmall Hwritten. revert rlp Hrlp.
  induction Hwritten as [|b written Hb _ IH]; intros rlp Hrlp.
  { exists []. cbn. by rewrite Z.add_0_r. }
  destruct (logProgressFiles_step rlp totalSize b msg)
    as (p & Hp & Hp100 & Hstep); [lia..|].
  cbn [logProgressFilesCalls]. rewrite Hstep.
  destruct (rlp + 10 <=? p) eqn:Hlog.
  - apply Z.leb_le in Hlog.
    destruct (IH (rlp + p)) as (ps & -> & Hout & Hof); [lia|].
    exists (p :: ps). cbn. repeat split.
    + unfold sumZ. f_equal. lia.
    + lia.
    + done.
    + constructor.
      * split; [lia|]. exists b. split; [apply list_elem_of_here|done].
      * eapply Forall_impl; [exact Hof|].
        intros q (? & c & ? & ?). split; [done|]. exists c.
        split; [by apply list_elem_of_further|done].
  - destruct (IH rlp) as (ps & -> & Hout & Hof); [lia|].
    exists ps. cbn. repeat split; [done|].
    eapply Forall_impl; [exact Hof|].
    intros q (? & c & ? & ?). split; [done|]. exists c.
    split; [by apply list_elem_of_further|done].
Qed.

(** Five files of two bytes each: [20%], [40%] and [80%] are printed, and
    no line after the last file. *)
Example logProgressFiles_five_files :
  logProgressFilesCalls [2; 4; 6; 8; 10] 0 10 "copying files:" =
    (140, progressLine "copying files:" <$> [20; 40; 80]).
Proof. by vm_compute. Qed.

(** X17: The progress of [CopyFiles] and [CleanFiles] over files of
    [totalSize > 0] bytes in all: as long as the bytes written (deleted) so
    far stay within [0..totalSize], the calls of [logProgressFiles] from the
    zero value of [recentlyLoggedProgress] do not overflow and leave in it
    the sum of the percentages printed; every line printed shows the
    percentage [bytesWritten * 100 / totalSize] of one of the calls, which is
    at most 100 and at least ten above the sum of all the percentages printed
    before it; so at most four lines are printed. *)
Theorem logProgressFiles_lines (written : list Z) (totalSize : Z)
    (msg : string) :
  0 < totalSize → totalSize * 100 < 2 ^ 63 →
  Forall (λ b, 0 ≤ b ≤ totalSize) written →
  ∃ ps, logProgressFilesCalls written 0 totalSize msg =
          (sumZ ps, progressLine msg <$> ps)
    ∧ outgrows 0 ps
    ∧ Forall (λ p, p ≤ 100 ∧ ∃ b, b ∈ written
                                  ∧ p = Z.quot (b * 100) totalSize) ps
    ∧ (length ps ≤ 4)%nat.
Proof.
  intros Htotal Hsmall Hwritten.
  destruct (logProgressFiles_calls written 0 totalSize msg)
    as (ps & Hrun & Hout & Hof); [lia..|done|].
  exists ps. split; [done|]. split; [done|]. split; [done|].
  apply (outgrows_short 0); [lia|done|].
  eapply Forall_impl; [exact Hof|]. by intros p [? _].
Qed.

Lemma logProgressFiles_lines_witness :
  ∃ ps, logProgressFilesCalls [300; 1000] 0 1000 "copying files:" =
          (sumZ ps, progressLine "copying files:" <$> ps)
    ∧ outgrows 0 ps
    ∧ Forall (λ p, p ≤ 100 ∧ ∃ b, b ∈ [300; 1000]
                                  ∧ p = Z.quot (b * 100) 1000) ps
    ∧ (length ps ≤ 4)%nat.
Proof.
  apply (logProgressFiles_lines [300; 1000] 1000); [lia|lia|].
  repeat constructor; lia.
Defined.

Lemma logProgressFiles_after_100 (written : list Z) (totalSize : Z)
    (msg : string) :
  totalSize ≤ 0 → logProgressFilesCalls written 100 totalSize msg = (100, []).
Proof.
  intros Htotal. induction written as [|b written IH]; [done|].
  cbn [logProgressFilesCalls].
  assert (logProgressFiles 100 totalSize b msg = (100, [])) as ->.
  { unfold logProgressFiles.
    destruct (0 <? totalSize) eqn:Hpos; [lia|].
    by destruct (totalSize =? 0). }
  by rewrite IH.
Qed.

(** X18: Files of no size: when [totalSize] is zero (every file of the
    plan is empty) or below zero (the total wrapped around), the first call
    of [logProgressFiles] prints [100%] and no later call prints anything,
    whatever the numbers of bytes written. *)
Theorem logProgressFiles_without_total (b : Z) (written : list Z)
    (totalSize : Z) (msg : string) :
  totalSize ≤ 0 →
  logProgressFilesCalls (b :: written) 0 totalSize msg =
    (100, [progressLine msg 100]).
Proof.
  intros Htotal. cbn [logProgressFilesCalls].
  assert (logProgressFiles 0 totalSize b msg
          = (100, [progressLine msg 100])) as ->.
  { unfold logProgressFiles.
    destruct (0 <? totalSize) eqn:Hpos; [lia|].
    by rewrite andb_false_r. }
  by rewrite logProgressFiles_after_100.
Qed.

Lemma logProgressFiles_without_total_witness :
  logProgressFilesCalls [0; 0; 0] 0 0 "removing files:" =
    (100, [progressLine "removing files:" 100]).
Proof. apply (logProgressFiles_without_total 0 [0; 0] 0); lia. Defined.

(** ** [VetFlags] *)

(** A process in [/home/u] started with [-src a -dst /mnt/b/ -c], where
    both are folders; and one started with [-src /etc/passwd/x -dst /mnt],
    where [os.Stat] fails with [ENOTDIR]. *)
Example VetFlags_examples :
  VetFlags "a" "/mnt/b/" true ("/home/u", None) (λ _, StatInfo true)
    = Ok ("/mnt/b", "/home/u/a", true, None)
  ∧ VetFlags "a" "" true ("/home/u", None) (λ _, StatInfo true)
    = Ok ("", "a", false, Some ErrWrongArgs)
  ∧ VetFlags "/etc/passwd/x" "/mnt" false ("/", None)
      (λ name, if bool_decide (name = "/mnt") then StatInfo true
               else StatError false)
    = Panic "invalid memory address or nil pointer dereference".
Proof. by vm_compute. Qed.

(** X19: [VetFlags] returns a nil error exactly when both paths are given,
    both can be made absolute, and [os.Stat] finds a folder at each of the
    two absolute paths; it then returns these absolute paths and the value
    of the [-c] flag. *)
Theorem VetFlags_nil_error_iff (srcPath dstPath : string) (cFlag : bool)
    (Getwd : string * option error) (Stat : string → StatResult)
    (dst src : string) (cleaningMode : bool) :
  VetFlags srcPath dstPath cFlag Getwd Stat
    = Ok (dst, src, cleaningMode, None)
  ↔ srcPath ≠ "" ∧ dstPath ≠ ""
    ∧ Abs Getwd dstPath = (dst, None) ∧ Abs Getwd srcPath = (src, None)
    ∧ Stat src = StatInfo true ∧ Stat dst = StatInfo true
    ∧ cleaningMode = cFlag.
Proof.
  unfold VetFlags.
  destruct (Abs Getwd dstPath) as [dst' errD].
  destruct (Abs Getwd srcPath) as [src' errS].
  repeat case_bool_decide; cbn [orb];
    try (split; [intros [=]|intros (? & ? & ? & ? & ?)]; congruence).
  destruct errD as [e|]; [done|]. destruct errS as [e|]; [done|].
  destruct (Stat src') as [[]|[]] eqn:HS; cbn;
    destruct (Stat dst') as [[]|[]] eqn:HD; cbn;
    (split; [intros [=]|intros (_ & _ & [=] & [=] & ? & ? & ?)]);
    subst; repeat split; congruence.
Qed.

(** X20: [VetFlags] panics, on a method call on the nil [FileInfo],
    exactly when both paths are given and can be made absolute and
    [os.Stat] fails with an error that is not of a missing file (a
    permission denied, a path through a file that is not a folder, ...)
    either on the source, or on the destination while the source is a
    folder; in all other cases it returns. *)
Theorem VetFlags_panics_iff (srcPath dstPath : string) (cFlag : bool)
    (Getwd : string * option error) (Stat : string → StatResult) :
  (∃ msg, VetFlags srcPath dstPath cFlag Getwd Stat = Panic msg)
  ↔ srcPath ≠ "" ∧ dstPath ≠ ""
    ∧ ∃ dst src, Abs Getwd dstPath = (dst, None)
        ∧ Abs Getwd srcPath = (src, None)
        ∧ (Stat src = StatError false
           ∨ Stat src = StatInfo true ∧ Stat dst = StatError false).
Proof.
  unfold VetFlags.
  destruct (Abs Getwd dstPath) as [dst' errD].
  destruct (Abs Getwd srcPath) as [src' errS].
  repeat case_bool_decide; cbn [orb];
    try (split; [intros [? [=]]|intros (? & ? & ? & ? & [=] & [=] & ?)];
         congruence).
  destruct errD as [e|]; [done|]. destruct errS as [e|]; [done|].
  destruct (Stat src') as [[]|[]] eqn:HS; cbn;
    destruct (Stat dst') as [[]|[]] eqn:HD; cbn;
    (split;
     [intros [? [=]]; repeat split; try done; exists dst', src';
      repeat split; rewrite ?HS, ?HD; auto
     |intros (_ & _ & ? & ? & [=] & [=] & [?|[? ?]]); subst;
      try congruence; by eexists]).
Qed.
